(** * Cyberbrain: the execution flow and its variable-change diffing

    A shallow embedding of [cyberbrain/flow.py]: the change-event
    dataclasses, [TrackingMetadata], [Node] and [Flow].

    Python objects that are mutated in place and referenced from several
    places (nodes linked by [prev]/[next], the class-level name counter)
    live in an explicit [World]; methods that touch only their receiver
    are pure functions on the receiver's record.  Exceptions are values of
    [exn]; a raising operation keeps whatever it had already written. *)

From stdpp Require Import gmap strings list fin_maps pretty.

Open Scope string_scope.
Open Scope list_scope.
Open Scope nat_scope.

(** ** Exceptions and results *)

(** The exception classes the code can raise: [ValueError] and [Exception]
    by an explicit [raise], [AssertionError] by [assert], the others by the
    interpreter (attribute access, indexing, subscripting [None]). *)
Inductive exn :=
  | ValueError (msg : string)
  | PyException (msg : string)
  | AssertionError
  | AttributeError
  | IndexError
  | KeyError
  | TypeError
  | SyntaxError
  (** not a Python exception: the answer of the model to an address outside
      the heap (a Python reference cannot dangle) *)
  | NoSuchObject.

Inductive result (A : Type) :=
  | Ok (a : A)
  | Raise (e : exn).
Arguments Ok {A} a.
Arguments Raise {A} e.

Definition rbind {A B} (r : result A) (k : A → result B) : result B :=
  match r with
  | Ok a => k a
  | Raise e => Raise e
  end.

Declare Scope result_scope.
Delimit Scope result_scope with res.
Notation "x ←? r ; k" := (rbind r (fun x => k))
  (at level 100, r at next level, k at level 200, right associativity,
   only parsing) : result_scope.

Definition is_Ok {A} (r : result A) : Prop :=
  match r with Ok _ => True | Raise _ => False end.

(** ** Identifiers *)

(** Modelled from the spec: [FrameID] and [ID] are imported from
    [cyberbrain/basis.py].  A scope-id wraps the tuple of ints it is built
    from; an [ID] is a (name, scope-id) pair with equality and hashing over
    both fields. *)
Record FrameID := mkFrameID { frame_id_tuple : list Z }.

Record ID := mkID { id_name : string; id_scope : FrameID }.

Global Instance FrameID_eq_dec : EqDecision FrameID.
Proof. solve_decision. Defined.

Global Instance ID_eq_dec : EqDecision ID.
Proof. solve_decision. Defined.

Global Instance FrameID_countable : Countable FrameID.
Proof.
  refine (inj_countable' frame_id_tuple mkFrameID _).
  intros []; reflexivity.
Defined.

Global Instance ID_countable : Countable ID.
Proof.
  refine (inj_countable' (λ i, (id_name i, id_scope i))
                         (λ p, mkID p.1 p.2) _).
  intros []; reflexivity.
Defined.

(** ** The fragment of Python's [ast] the flow inspects *)

Local Unset Elimination Schemes.
Inductive expr :=
  | Name (id : string)
  | Constant (value : Z)
  | Attribute (value : expr) (attr : string)
  | Subscript (value : expr) (slice : expr)
  | Call (func : expr) (args : list expr) (keywords : list (string * expr))
  | BinOp (left : expr) (op : string) (right : expr).
Local Set Elimination Schemes.

Inductive stmt :=
  | Expr (value : expr)
  | Assign (targets : list expr) (value : expr)
  | Return (value : option expr)
  | Pass.

Record mod_ := Module { body : list stmt }.

(** What an attribute access on an AST node can yield: another node,
    [None] (the value of a bare [return]) or a plain Python constant. *)
Inductive pyobj :=
  | ONode (e : expr)
  | OConst (z : Z)
  | ONone.

(** [stmt.value] *)
Definition stmt_value (s : stmt) : result pyobj :=
  match s with
  | Expr v => Ok (ONode v)
  | Assign _ v => Ok (ONode v)
  | Return (Some v) => Ok (ONode v)
  | Return None => Ok ONone
  | Pass => Raise AttributeError
  end.

(** [o.func] *)
Definition attr_func (o : pyobj) : result pyobj :=
  match o with
  | ONode (Call f _ _) => Ok (ONode f)
  | _ => Raise AttributeError
  end.

(** [o.value] *)
Definition attr_value (o : pyobj) : result pyobj :=
  match o with
  | ONode (Attribute v _) => Ok (ONode v)
  | ONode (Subscript v _) => Ok (ONode v)
  | ONode (Constant z) => Ok (OConst z)
  | _ => Raise AttributeError
  end.

(** [o.id] *)
Definition attr_id (o : pyobj) : result string :=
  match o with
  | ONode (Name s) => Ok s
  | _ => Raise AttributeError
  end.

(** [o.args] *)
Definition attr_args (o : pyobj) : result (list expr) :=
  match o with
  | ONode (Call _ a _) => Ok a
  | _ => Raise AttributeError
  end.

(** [l[0]] *)
Definition index0 {A} (l : list A) : result A :=
  match l with
  | x :: _ => Ok x
  | [] => Raise IndexError
  end.

(** [str.strip()] on ASCII text: drops leading and trailing whitespace. *)
Definition py_isspace (c : Ascii.ascii) : bool :=
  let n := Ascii.nat_of_ascii c in
  ((9 <=? n) && (n <=? 13)) || ((28 <=? n) && (n <=? 32)).

Fixpoint lstrip (s : string) : string :=
  match s with
  | String c s' => if py_isspace c then lstrip s' else s
  | EmptyString => EmptyString
  end.

Fixpoint rstrip (s : string) : string :=
  match s with
  | String c s' =>
      match rstrip s' with
      | EmptyString => if py_isspace c then EmptyString else String c EmptyString
      | t => String c t
      end
  | EmptyString => EmptyString
  end.

Definition strip (s : string) : string := rstrip (lstrip s).

(** ** External collaborators

    The values a snapshot holds are arbitrary Python objects, compared by
    [utils.has_diff]; source text and parsed form are converted by
    [astor.to_source], [utils.parse_code_str] and [ast.parse].  None of
    these is part of [flow.py]: the development is parametric in them.
    The three converters may raise. *)
Class External := {
  Value : Type;
  has_diff : Value → Value → bool;
  to_source : mod_ → result string;
  parse_code_str : string → result mod_;
  ast_parse : string → result mod_;
}.

(** ** Change events *)

Section Flow.
Context `{Ext : External}.

Record VarAppearance := mkVarAppearance { ap_id : ID; ap_value : Value }.

Record VarModification :=
  mkVarModification { mod_id : ID; old_value : Value; new_value : Value }.

Record VarSwitch :=
  mkVarSwitch { arg_id : ID; param_id : ID; sw_value : Value }.

(** What a diff may hand to its caller: an instance of one of the three
    dataclasses. *)
Inductive Change :=
  | Appearance (a : VarAppearance)
  | Modification (m : VarModification)
  | Switch (s : VarSwitch).

Definition change_id (c : Change) : ID :=
  match c with
  | Appearance a => ap_id a
  | Modification m => mod_id m
  | Switch s => arg_id s
  end.

(** ** [TrackingMetadata] *)

(** A [dict] iterated in insertion order: an association list whose keys
    are pairwise distinct. *)
Definition pydict (K V : Type) := list (K * V).

Fixpoint dict_get {K V} `{EqDecision K} (d : pydict K V) (k : K) : option V :=
  match d with
  | [] => None
  | (k', v) :: d' => if decide (k' = k) then Some v else dict_get d' k
  end.

Record TrackingMetadata := mkTrackingMetadata {
  code_str : string;
  code_ast : mod_;
  param_to_arg : option (pydict ID (list ID));
  (** the attribute exists only when [param_to_arg] was truthy *)
  arg_to_param : option (gmap ID ID);
  tracking : gset ID;
  var_appearances : list VarAppearance;
  var_modifications : list VarModification;
  var_switches : list VarSwitch;
  data : gmap ID Value;
  data_before_return : option (gmap ID Value);
}.

(** The keyword arguments of [TrackingMetadata.__init__]; [data] has no
    default. *)
Record kwargs := mkKwargs {
  kw_data : gmap ID Value;
  kw_code_str : option string;
  kw_code_ast : option mod_;
  kw_param_to_arg : option (pydict ID (list ID));
  kw_data_before_return : option (gmap ID Value);
}.

(** Python truthiness of the optional arguments: [None] and the empty
    string or dict are false; an [ast.AST] object is always true. *)
Definition truthy_str (o : option string) : bool :=
  match o with
  | Some (String _ _) => true
  | _ => false
  end.

Definition truthy_ast (o : option mod_) : bool :=
  match o with
  | Some _ => true
  | None => false
  end.

Definition truthy_dict {K V} (o : option (pydict K V)) : bool :=
  match o with
  | Some (_ :: _) => true
  | _ => false
  end.

(** The two nested loops filling [arg_to_param]. *)
Definition build_arg_to_param (p2a : pydict ID (list ID)) : gmap ID ID :=
  foldl (λ m '(param, args), foldl (λ m' arg, <[arg := param]> m') m args)
        ∅ p2a.

Definition TrackingMetadata_init (kw : kwargs) : result TrackingMetadata :=
  if negb (truthy_str (kw_code_str kw) || truthy_ast (kw_code_ast kw)) then
    Raise (ValueError "Should provide code_str or code_ast.")
  else
    (* self.code_str = code_str or astor.to_source(code_ast) *)
    (code_str' ←? match kw_code_str kw, kw_code_ast kw with
                  | Some (String c s), _ => Ok (String c s)
                  | _, Some a => to_source a
                  | _, None => Ok ""           (* excluded by the check *)
                  end;
     (* self.code_ast = code_ast or utils.parse_code_str(code_str) *)
     code_ast' ←? match kw_code_ast kw, kw_code_str kw with
                  | Some a, _ => Ok a
                  | None, Some s => parse_code_str s
                  | None, None => Ok (Module [])  (* excluded by the check *)
                  end;
     Ok {| code_str := code_str';
           code_ast := code_ast';
           param_to_arg := kw_param_to_arg kw;
           arg_to_param :=
             if truthy_dict (kw_param_to_arg kw)
             then build_arg_to_param <$> kw_param_to_arg kw
             else None;
           tracking := ∅;
           var_appearances := [];
           var_modifications := [];
           var_switches := [];
           data := kw_data kw;
           data_before_return := kw_data_before_return kw |})%res.

(** [set(itertools.chain.from_iterable(self.param_to_arg.values()))];
    [None.values] is an [AttributeError]. *)
Definition get_args (md : TrackingMetadata) : result (gset ID) :=
  match param_to_arg md with
  | Some p2a => Ok (list_to_set (concat (snd <$> p2a)))
  | None => Raise AttributeError
  end.

Definition add_var_appearances (md : TrackingMetadata)
    (l : list VarAppearance) : TrackingMetadata :=
  {| code_str := code_str md; code_ast := code_ast md;
     param_to_arg := param_to_arg md; arg_to_param := arg_to_param md;
     tracking := tracking md;
     var_appearances := var_appearances md ++ l;
     var_modifications := var_modifications md;
     var_switches := var_switches md;
     data := data md; data_before_return := data_before_return md |}.

Definition add_var_modifications (md : TrackingMetadata)
    (l : list VarModification) : TrackingMetadata :=
  {| code_str := code_str md; code_ast := code_ast md;
     param_to_arg := param_to_arg md; arg_to_param := arg_to_param md;
     tracking := tracking md;
     var_appearances := var_appearances md;
     var_modifications := var_modifications md ++ l;
     var_switches := var_switches md;
     data := data md; data_before_return := data_before_return md |}.

Definition add_var_switches (md : TrackingMetadata)
    (l : list VarSwitch) : TrackingMetadata :=
  {| code_str := code_str md; code_ast := code_ast md;
     param_to_arg := param_to_arg md; arg_to_param := arg_to_param md;
     tracking := tracking md;
     var_appearances := var_appearances md;
     var_modifications := var_modifications md;
     var_switches := var_switches md ++ l;
     data := data md; data_before_return := data_before_return md |}.

Definition set_tracking (md : TrackingMetadata) (t : gset ID)
    : TrackingMetadata :=
  {| code_str := code_str md; code_ast := code_ast md;
     param_to_arg := param_to_arg md; arg_to_param := arg_to_param md;
     tracking := t;
     var_appearances := var_appearances md;
     var_modifications := var_modifications md;
     var_switches := var_switches md;
     data := data md; data_before_return := data_before_return md |}.

(** [for new_id in new_ids: if new_id in self.data: self.tracking.add(new_id)] *)
Definition add_tracking (md : TrackingMetadata) (new_ids : list ID)
    : TrackingMetadata :=
  foldl (λ md' new_id,
           if decide (is_Some (data md' !! new_id))
           then set_tracking md' ({[new_id]} ∪ tracking md')
           else md')
        md new_ids.

(** ** [Node] and the world of live objects *)

Definition addr := nat.

(** What a relation attribute can hold: [None], the sentinel [Flow.ROOT],
    or a reference to a node. *)
Inductive Ref :=
  | PyNone
  | ROOT
  | NodeRef (a : addr).

Record Node := mkNode {
  frame_id : FrameID;
  prev : Ref;
  next : Ref;
  step_into : Ref;
  returned_from : Ref;
  metadata : TrackingMetadata;
  name : string;
}.

(** [heap] holds every node constructed so far, a node's address being its
    position; [_name_gen] is the class attribute [Node._name_gen], an
    [itertools.count()] shared by all nodes. *)
Record World := mkWorld {
  heap : list Node;
  _name_gen : nat;
}.

Definition M (A : Type) : Type := World → result A * World.

Definition on_metadata (f : TrackingMetadata → TrackingMetadata) (n : Node)
    : Node :=
  {| frame_id := frame_id n; prev := prev n; next := next n;
     step_into := step_into n; returned_from := returned_from n;
     metadata := f (metadata n); name := name n |}.

Definition setattr (n : Node) (relation_name : string) (r : Ref) : Node :=
  if decide (relation_name = "prev") then
    {| frame_id := frame_id n; prev := r; next := next n;
       step_into := step_into n; returned_from := returned_from n;
       metadata := metadata n; name := name n |}
  else if decide (relation_name = "next") then
    {| frame_id := frame_id n; prev := prev n; next := r;
       step_into := step_into n; returned_from := returned_from n;
       metadata := metadata n; name := name n |}
  else if decide (relation_name = "step_into") then
    {| frame_id := frame_id n; prev := prev n; next := next n;
       step_into := r; returned_from := returned_from n;
       metadata := metadata n; name := name n |}
  else if decide (relation_name = "returned_from") then
    {| frame_id := frame_id n; prev := prev n; next := next n;
       step_into := step_into n; returned_from := r;
       metadata := metadata n; name := name n |}
  else n.

(** In-place update of the node at address [a]. *)
Definition upd (a : addr) (f : Node → Node) (w : World) : World :=
  {| heap := alter f a (heap w); _name_gen := _name_gen w |}.

(** The first argument of [Node.__init__]: a [FrameID] or a tuple. *)
Inductive frame_id_arg :=
  | AsFrameID (f : FrameID)
  | AsTuple (t : list Z).

(** [Node.__init__]: the metadata is built first, then the name is drawn
    from the shared counter. *)
Definition Node_init (fa : frame_id_arg) (kw : kwargs) : M addr := λ w,
  match TrackingMetadata_init kw with
  | Raise e => (Raise e, w)
  | Ok md =>
      let n := {| frame_id := match fa with
                              | AsFrameID f => f
                              | AsTuple t => mkFrameID t
                              end;
                  prev := PyNone; next := PyNone;
                  step_into := PyNone; returned_from := PyNone;
                  metadata := md;
                  name := pretty (_name_gen w) |} in
      (Ok (length (heap w)),
       {| heap := heap w ++ [n]; _name_gen := S (_name_gen w) |})
  end.

Definition is_callsite (n : Node) : bool :=
  match step_into n with
  | PyNone => false
  | _ => true
  end.

Definition relation_names : list string :=
  ["prev"; "next"; "step_into"; "returned_from"].

(** [build_relation]: relations set before a wrong name is met stay set. *)
Fixpoint build_relation (n : Node) (relation_dict : pydict string Ref)
    : result unit * Node :=
  match relation_dict with
  | [] => (Ok (), n)
  | (relation_name, node) :: rest =>
      if decide (relation_name ∈ relation_names) then
        build_relation (setattr n relation_name node) rest
      else (Raise (PyException ("wrong relation_name: " +:+ relation_name)), n)
  end.

(** [sync_tracking_with]: [add_tracking( *other.tracking )]. *)
Definition sync_tracking_with (md : TrackingMetadata) (other : Node)
    : TrackingMetadata :=
  add_tracking md (elements (tracking (metadata other))).

(** ** The diff between two nodes of one frame

    [get_and_update_var_changes] is a generator: nothing runs until the
    caller asks for an element, and each request runs the loop up to the
    next [yield].  [g_todo] is [None] before the body is entered and the
    identifiers the loop has still to visit afterwards. *)
Record generator := mkGen {
  g_self : addr;
  g_other : addr;
  g_todo : option (list ID);
}.

Inductive gen_outcome :=
  | Yield (c : Change) (g : generator)
  | StopIteration
  | Raised (e : exn).

Fixpoint resume (self other : addr) (todo : list ID) (w : World)
    : gen_outcome * World :=
  match todo with
  | [] => (StopIteration, w)
  | var_id :: todo' =>
      match heap w !! self, heap w !! other with
      | Some s, Some o =>
          let old_value := data (metadata s) !! var_id in
          match data (metadata o) !! var_id with
          | None => (Raised KeyError, w)
          | Some new_value =>
              match old_value with
              | None =>
                  let var_appearance := mkVarAppearance var_id new_value in
                  (Yield (Appearance var_appearance)
                         (mkGen self other (Some todo')),
                   upd self (on_metadata (λ md,
                     add_var_appearances md [var_appearance])) w)
              | Some old_value =>
                  if has_diff new_value old_value then
                    let var_modification :=
                      mkVarModification var_id old_value new_value in
                    (Yield (Modification var_modification)
                           (mkGen self other (Some todo')),
                     upd self (on_metadata (λ md,
                       add_var_modifications md [var_modification])) w)
                  else resume self other todo' w
              end
          end
      | _, _ => (Raised NoSuchObject, w)
      end
  end.

(** Calling [self.get_and_update_var_changes(other)] only creates the
    generator. *)
Definition get_and_update_var_changes (self other : addr) : generator :=
  mkGen self other None.

(** [next(g)] *)
Definition gen_next (g : generator) (w : World) : gen_outcome * World :=
  match g_todo g with
  | Some todo => resume (g_self g) (g_other g) todo w
  | None =>
      match heap w !! g_self g, heap w !! g_other g with
      | Some s, Some o =>
          if decide (frame_id s = frame_id o) then
            resume (g_self g) (g_other g) (elements (tracking (metadata o))) w
          else (Raised AssertionError, w)
      | _, _ => (Raised NoSuchObject, w)
      end
  end.

(** The identifiers a generator has still to visit. *)
Definition todo_of (g : generator) (w : World) : list ID :=
  match g_todo g with
  | Some todo => todo
  | None =>
      match heap w !! g_other g with
      | Some o => elements (tracking (metadata o))
      | None => []
      end
  end.

(** How a consumer left the generator. *)
Inductive gen_status :=
  | Suspended (g : generator)
  | Exhausted
  | Failed (e : exn).

(** Asking the generator for at most [k] elements, as
    [itertools.islice(g, k)] or a [for] loop left early does. *)
Fixpoint islice (k : nat) (g : generator) (w : World)
    : list Change * gen_status * World :=
  match k with
  | 0 => ([], Suspended g, w)
  | S k' =>
      match gen_next g w with
      | (Yield c g', w') =>
          let '(cs, st, w'') := islice k' g' w' in (c :: cs, st, w'')
      | (StopIteration, w') => ([], Exhausted, w')
      | (Raised e, w') => ([], Failed e, w')
      end
  end.

(** [list(self.get_and_update_var_changes(other))]: one more request than
    there are tracked identifiers always reaches the end. *)
Definition list_var_changes (self other : addr) (w : World)
    : list Change * gen_status * World :=
  let bound :=
    match heap w !! other with
    | Some o => size (tracking (metadata o))
    | None => 0
    end in
  islice (S bound) (get_and_update_var_changes self other) w.

(** ** The comparison before a frame returns *)

Fixpoint before_return_loop (n : Node) (todo : list ID) : result unit * Node :=
  match todo with
  | [] => (Ok (), n)
  | var_id :: todo' =>
      let old_value := data (metadata n) !! var_id in
      match data_before_return (metadata n) with
      | None => (Raise TypeError, n)
      | Some before_return =>
          match before_return !! var_id with
          | None => (Raise KeyError, n)
          | Some new_value =>
              match old_value with
              | None =>
                  let var_appearance := mkVarAppearance var_id new_value in
                  before_return_loop
                    (on_metadata (λ md,
                       add_var_appearances md [var_appearance]) n) todo'
              | Some old_value =>
                  if has_diff new_value old_value then
                    let var_modification :=
                      mkVarModification var_id old_value new_value in
                    before_return_loop
                      (on_metadata (λ md,
                         add_var_modifications md [var_modification]) n) todo'
                  else before_return_loop n todo'
              end
          end
      end
  end.

(** [if self.data_before_return is None: pass] leaves the loop to run. *)
Definition update_var_changes_before_return (n : Node) : result unit * Node :=
  before_return_loop n (elements (tracking (metadata n))).

(** ** [Flow] *)

Record Flow := mkFlow { start : addr; target : addr }.

(** The identifier named by the target's source, as
    [_update_target_id] reads it off the parsed text. *)
Definition target_id (t : Node) : result ID :=
  (register_call_ast ←? ast_parse (strip (code_str (metadata t)));
   s ←? index0 (body register_call_ast);
   v ←? stmt_value s;
   f ←? attr_func v;
   fv ←? attr_value f;
   i ←? attr_id fv;
   if decide (i = "cyberbrain") then
     s' ←? index0 (body register_call_ast);
     v' ←? stmt_value s';
     a ←? attr_args v';
     a0 ←? index0 a;
     x ←? attr_id (ONode a0);
     Ok (mkID x (frame_id t))
   else Raise AssertionError)%res.

Definition _update_target_id (target : addr) : M unit := λ w,
  match heap w !! target with
  | None => (Raise NoSuchObject, w)
  | Some t =>
      match target_id t with
      | Raise e => (Raise e, w)
      | Ok i => (Ok (), upd target (on_metadata (λ md, add_tracking md [i])) w)
      end
  end.

Definition Flow_init (start target : addr) : M Flow := λ w,
  let w1 := upd start (λ n, setattr n "prev" ROOT) w in
  match _update_target_id target w1 with
  | (Ok _, w2) => (Ok (mkFlow start target), w2)
  | (Raise e, w2) => (Raise e, w2)
  end.

(** ** Programs over the flow API

    A client of [flow.py] is a sequence of calls; [exec] performs one call
    and keeps the world it leaves behind, whether it returned or raised. *)
Inductive Op :=
  | NewNode (fa : frame_id_arg) (kw : kwargs)
  | BuildRelation (a : addr) (relation_dict : pydict string Ref)
  | AddTracking (a : addr) (new_ids : list ID)
  | SyncTrackingWith (a other : addr)
  | AddVarAppearances (a : addr) (l : list VarAppearance)
  | AddVarModifications (a : addr) (l : list VarModification)
  | AddVarSwitches (a : addr) (l : list VarSwitch)
  (** ask the generator of a diff for at most [k] elements *)
  | VarChanges (self other : addr) (k : nat)
  | VarChangesBeforeReturn (a : addr)
  | NewFlow (start target : addr).

Definition exec (op : Op) (w : World) : World :=
  match op with
  | NewNode fa kw => (Node_init fa kw w).2
  | BuildRelation a rd => upd a (λ n, (build_relation n rd).2) w
  | AddTracking a ids => upd a (on_metadata (λ md, add_tracking md ids)) w
  | SyncTrackingWith a b =>
      match heap w !! b with
      | Some other => upd a (on_metadata (λ md, sync_tracking_with md other)) w
      | None => w
      end
  | AddVarAppearances a l =>
      upd a (on_metadata (λ md, add_var_appearances md l)) w
  | AddVarModifications a l =>
      upd a (on_metadata (λ md, add_var_modifications md l)) w
  | AddVarSwitches a l => upd a (on_metadata (λ md, add_var_switches md l)) w
  | VarChanges self other k =>
      (islice k (get_and_update_var_changes self other) w).2
  | VarChangesBeforeReturn a =>
      upd a (λ n, (update_var_changes_before_return n).2) w
  | NewFlow start target => (Flow_init start target w).2
  end.

Definition run (ops : list Op) (w : World) : World :=
  foldl (λ w' op, exec op w') w ops.

(** No node yet, and a counter that has not been asked. *)
Definition initial_world : World := {| heap := []; _name_gen := 0 |}.

(** The invariant of a node: it tracks only what its snapshot holds. *)
Definition tracking_in_data (n : Node) : Prop :=
  tracking (metadata n) ⊆ dom (data (metadata n)).

(** A call may change a node, but neither its name nor the invariant. *)
Definition same_node (n n' : Node) : Prop :=
  name n' = name n ∧ (tracking_in_data n → tracking_in_data n').

(** A world after calls that constructed no node. *)
Definition evolves (w w' : World) : Prop :=
  _name_gen w' = _name_gen w ∧ Forall2 same_node (heap w) (heap w').

(** ** What a diff is expected to do, written on the snapshots *)

(** The event, if any, for one identifier given its old and new value. *)
Definition classify (var_id : ID) (old : option Value) (new : Value)
    : option Change :=
  match old with
  | None => Some (Appearance (mkVarAppearance var_id new))
  | Some old =>
      if has_diff new old
      then Some (Modification (mkVarModification var_id old new))
      else None
  end.

Definition events_between (old new : gmap ID Value) (ids : list ID)
    : list Change :=
  omap (λ var_id, new !! var_id ≫= classify var_id (old !! var_id)) ids.

(** Storing one event in the sequence of its kind. *)
Definition record (md : TrackingMetadata) (c : Change) : TrackingMetadata :=
  match c with
  | Appearance a => add_var_appearances md [a]
  | Modification m => add_var_modifications md [m]
  | Switch s => add_var_switches md [s]
  end.

Definition record_all (cs : list Change) (md : TrackingMetadata)
    : TrackingMetadata :=
  foldl record md cs.

Definition appearances_of (cs : list Change) : list VarAppearance :=
  omap (λ c, match c with Appearance a => Some a | _ => None end) cs.

Definition modifications_of (cs : list Change) : list VarModification :=
  omap (λ c, match c with Modification m => Some m | _ => None end) cs.

Definition switches_of (cs : list Change) : list VarSwitch :=
  omap (λ c, match c with Switch s => Some s | _ => None end) cs.

End Flow.

(** ** [format.py]: the views of nodes

    A [NodeView] wraps an object and carries the port name under which the
    object is drawn.  The class attributes [_portname_cache], keyed by the
    identity [id(...)] of the wrapped object, and [_incrementor], an
    [itertools.count()], are shared by all views.  The objects a view can
    wrap are those a relation can hold; each is its own identity. *)

Global Instance Ref_eq_dec : EqDecision Ref.
Proof. solve_decision. Defined.

Global Instance Ref_countable : Countable Ref.
Proof.
  refine (inj_countable'
            (λ r, match r with
                  | PyNone => inl ()
                  | ROOT => inr (inl ())
                  | NodeRef a => inr (inr a)
                  end)
            (λ x, match x with
                  | inl _ => PyNone
                  | inr (inl _) => ROOT
                  | inr (inr a) => NodeRef a
                  end) _).
  intros []; reflexivity.
Defined.

Record ViewState := mkViewState {
  _portname_cache : gmap Ref string;
  _incrementor : nat;
}.

Record NodeView := mkNodeView {
  _node : Ref;
  _portname : string;
}.

(** Nothing drawn yet. *)
Definition initial_views : ViewState :=
  {| _portname_cache := ∅; _incrementor := 0 |}.

(** [_generate_portname]: the cached name of the object, or the next
    number, which is then cached. *)
Definition _generate_portname (node : Ref) (st : ViewState)
    : string * ViewState :=
  match _portname_cache st !! node with
  | Some portname => (portname, st)
  | None =>
      let portname := pretty (_incrementor st) in
      (portname,
       {| _portname_cache := <[node := portname]> (_portname_cache st);
          _incrementor := S (_incrementor st) |})
  end.

(** [NodeView.__init__] *)
Definition NodeView_init (node : Ref) (st : ViewState)
    : NodeView * ViewState :=
  let '(portname, st') := _generate_portname node st in
  ({| _node := node; _portname := portname |}, st').

(** Constructing views of several objects, one after the other. *)
Fixpoint NodeView_all (nodes : list Ref) (st : ViewState)
    : list NodeView * ViewState :=
  match nodes with
  | [] => ([], st)
  | node :: nodes' =>
      let '(v, st1) := NodeView_init node st in
      let '(vs, st2) := NodeView_all nodes' st1 in
      (v :: vs, st2)
  end.

(** The invariant of the shared cache: as many entries as numbers drawn,
    every entry the text of a number drawn, every number drawn in use,
    and no name given to two objects. *)
Definition portnames_ok (st : ViewState) : Prop :=
  size (_portname_cache st) = _incrementor st
  ∧ (∀ r pn, _portname_cache st !! r = Some pn →
             ∃ k, k < _incrementor st ∧ pn = pretty k)
  ∧ (∀ k, k < _incrementor st →
          ∃ r, _portname_cache st !! r = Some (pretty k))
  ∧ (∀ r1 r2 pn, _portname_cache st !! r1 = Some pn →
                 _portname_cache st !! r2 = Some pn → r1 = r2).

Section Format.
Context `{Ext : External}.

(** The properties [next], [step_into] and [returned_from] of a view:
    [NodeView(self._node.rel) if self._node.rel else None].  Reading the
    relation off [None] or [ROOT] is an [AttributeError]; [None] is the
    only falsy value a relation holds. *)
Definition view_relation (rel : Node → Ref) (v : NodeView) (w : World)
    (st : ViewState) : result (option NodeView) * ViewState :=
  match _node v with
  | NodeRef a =>
      match heap w !! a with
      | Some n =>
          match rel n with
          | PyNone => (Ok None, st)
          | r => let '(v', st') := NodeView_init r st in (Ok (Some v'), st')
          end
      | None => (Raise NoSuchObject, st)
      end
  | _ => (Raise AttributeError, st)
  end.

Definition view_next := view_relation next.
Definition view_step_into := view_relation step_into.
Definition view_returned_from := view_relation returned_from.

End Format.

(** ** A concrete setting for examples

    Integer values compared by inequality, and a parser that knows the
    source lines used below. *)
Definition sample_parse (s : string) : result mod_ :=
  let marker := Attribute (Name "cyberbrain") "register" in
  if decide (s = "cyberbrain.register(result)") then
    Ok (Module [Expr (Call marker [Name "result"] [])])
  else if decide (s = "cyberbrain.register(1+2)") then
    Ok (Module [Expr (Call marker [BinOp (Constant 1) "+" (Constant 2)] [])])
  else if decide (s = "cyberbrain.register(x, y)") then
    Ok (Module [Expr (Call marker [Name "x"; Name "y"] [])])
  else if decide (s = "foo.register(x)") then
    Ok (Module [Expr (Call (Attribute (Name "foo") "register") [Name "x"] [])])
  else if decide (s = "x = 1") then
    Ok (Module [Assign [Name "x"] (Constant 1)])
  else if decide (s = "") then Ok (Module [])
  else Raise SyntaxError.

(** The tree of a line the parser knows, to write expected nodes with. *)
Definition sample_parse_code_str (s : string) : mod_ :=
  match sample_parse s with
  | Ok m => m
  | Raise _ => Module [Pass]
  end.

Definition sample : External := {|
  Value := Z;
  has_diff := λ x y, negb (x =? y)%Z;
  to_source := λ _, Ok "pass";
  parse_code_str := sample_parse;
  ast_parse := sample_parse;
|}.

Section Samples.
#[local] Existing Instance sample.

Definition frame0 : FrameID := mkFrameID [0%Z].

Definition x_id : ID := mkID "x" frame0.
Definition y_id : ID := mkID "y" frame0.
Definition p_id : ID := mkID "p" frame0.

Definition kw_of (code : string) (d : gmap ID Z) : kwargs :=
  {| kw_data := d; kw_code_str := Some code; kw_code_ast := None;
     kw_param_to_arg := None; kw_data_before_return := None |}.

(** A node of [frame0] with source [x = 1], no relation and no event. *)
Definition sample_node (nm : string)
    (p2a : option (pydict ID (list ID))) (a2p : option (gmap ID ID))
    (trk : gset ID) (d : gmap ID Z) (before_return : option (gmap ID Z))
    : Node :=
  {| frame_id := frame0; prev := PyNone; next := PyNone;
     step_into := PyNone; returned_from := PyNone;
     metadata :=
       {| code_str := "x = 1";
          code_ast := Module [Assign [Name "x"] (Constant 1)];
          param_to_arg := p2a; arg_to_param := a2p;
          tracking := trk;
          var_appearances := []; var_modifications := []; var_switches := [];
          data := d;
          data_before_return := before_return |};
     name := nm |}.

(** The worlds of the examples: an earlier and a later node of one frame. *)
Definition kw_entry : kwargs :=
  {| kw_data := ∅; kw_code_str := Some "x = 1"; kw_code_ast := None;
     kw_param_to_arg := Some [(p_id, [y_id])];
     kw_data_before_return := None |}.

(** Node 0 is a call-entry step binding parameter [p] to argument [y];
    node 1 follows it, sees [y = 5] and tracks [y]. *)
Definition world_call : World :=
  run [NewNode (AsTuple [0%Z]) kw_entry;
       NewNode (AsTuple [0%Z]) (kw_of "x = 1" {[y_id := 5%Z]});
       AddTracking 1 [y_id]] initial_world.

Definition node_entry : Node :=
  sample_node "0" (Some [(p_id, [y_id])]) (Some {[y_id := p_id]}) ∅ ∅ None.

Definition node_after_entry : Node :=
  sample_node "1" None None {[y_id]} {[y_id := 5%Z]} None.

(** Node 0 has no [x]; node 1 follows it, sees [x = 1] and tracks [x]. *)
Definition program_appear : list Op :=
  [NewNode (AsTuple [0%Z]) (kw_of "x = 1" ∅);
   NewNode (AsTuple [0%Z]) (kw_of "x = 1" {[x_id := 1%Z]});
   AddTracking 1 [x_id]].

Definition world_appear : World := run program_appear initial_world.

Definition node_earlier : Node := sample_node "0" None None ∅ ∅ None.

Definition node_later : Node :=
  sample_node "1" None None {[x_id]} {[x_id := 1%Z]} None.

(** A frame's last node: [x = 1] in [data], [x = 2] just before the
    return, [x] tracked. *)
Definition kw_return : kwargs :=
  {| kw_data := {[x_id := 1%Z]}; kw_code_str := Some "x = 1";
     kw_code_ast := None; kw_param_to_arg := None;
     kw_data_before_return := Some {[x_id := 2%Z]} |}.

Definition world_return : World :=
  run [NewNode (AsTuple [0%Z]) kw_return; AddTracking 0 [x_id]] initial_world.

Definition node_return : Node :=
  sample_node "0" None None {[x_id]} {[x_id := 1%Z]} (Some {[x_id := 2%Z]}).

(** The same node when no snapshot was taken before the return. *)
Definition world_no_return : World :=
  run [NewNode (AsTuple [0%Z]) (kw_of "x = 1" {[x_id := 1%Z]});
       AddTracking 0 [x_id]] initial_world.

Definition node_no_return : Node :=
  sample_node "0" None None {[x_id]} {[x_id := 1%Z]} None.

Definition result_id : ID := mkID "result" frame0.

(** A single node whose source is the given line, seeing [x = 1] and
    [result = 3]. *)
Definition world_of_source (code : string) : World :=
  run [NewNode (AsTuple [0%Z])
         (kw_of code {[x_id := 1%Z; result_id := 3%Z]})] initial_world.


(** A source text given, but empty. *)
Definition kw_empty_source : kwargs :=
  {| kw_data := ∅; kw_code_str := Some ""; kw_code_ast := None;
     kw_param_to_arg := None; kw_data_before_return := None |}.

(** A call-entry whose argument [y] is bound to two parameters, [p]
    first and [q] after it. *)
Definition q_id : ID := mkID "q" frame0.

Definition kw_shared_argument : kwargs :=
  {| kw_data := ∅; kw_code_str := Some "x = 1"; kw_code_ast := None;
     kw_param_to_arg := Some [(p_id, [y_id]); (q_id, [y_id; x_id])];
     kw_data_before_return := None |}.

(** A later node of another frame than the earlier one. *)
Definition world_two_frames : World :=
  run [NewNode (AsTuple [0%Z]) (kw_of "x = 1" ∅);
       NewNode (AsTuple [0%Z; 1%Z]) (kw_of "x = 1" {[x_id := 1%Z]});
       AddTracking 1 [x_id]] initial_world.

Definition node_other_frame : Node :=
  {| frame_id := mkFrameID [0%Z; 1%Z]; prev := PyNone; next := PyNone;
     step_into := PyNone; returned_from := PyNone;
     metadata := metadata node_later; name := "1" |}.

(** A last node tracking [x] and [y], of which only [x] is known just
    before the return. *)
Definition node_return_missing : Node :=
  sample_node "0" None None {[x_id; y_id]} {[x_id := 1%Z; y_id := 5%Z]}
    (Some {[x_id := 2%Z]}).

Definition kw_return_missing : kwargs :=
  {| kw_data := {[x_id := 1%Z; y_id := 5%Z]}; kw_code_str := Some "x = 1";
     kw_code_ast := None; kw_param_to_arg := None;
     kw_data_before_return := Some {[x_id := 2%Z]} |}.

Definition world_return_missing : World :=
  run [NewNode (AsTuple [0%Z]) kw_return_missing;
       AddTracking 0 [x_id; y_id]] initial_world.

(** A node whose source names [result] though its snapshot is empty. *)
Definition world_unknown_target : World :=
  run [NewNode (AsTuple [0%Z]) (kw_of "cyberbrain.register(result)" ∅)]
      initial_world.

Definition node_unknown_target : Node :=
  {| frame_id := frame0; prev := PyNone; next := PyNone;
     step_into := PyNone; returned_from := PyNone;
     metadata :=
       {| code_str := "cyberbrain.register(result)";
          code_ast := sample_parse_code_str "cyberbrain.register(result)";
          param_to_arg := None; arg_to_param := None;
          tracking := ∅;
          var_appearances := []; var_modifications := []; var_switches := [];
          data := ∅;
          data_before_return := None |};
     name := "0" |}.

(** The appearance scenario with node 0 linked to node 1. *)
Definition relations_of_call : pydict string Ref :=
  [("next", NodeRef 1); ("step_into", NodeRef 1)].

Definition world_linked : World :=
  run (program_appear ++ [BuildRelation 0 relations_of_call]) initial_world.

Definition program_return : list Op :=
  [NewNode (AsTuple [0%Z]) kw_return; AddTracking 0 [x_id]].

(** Objects viewed one after the other, node 0 twice. *)
Definition viewed : list Ref := [NodeRef 0; NodeRef 1; NodeRef 0].

End Samples.

(** ** Properties *)

Section FlowProperties.
Context `{Ext : External}.

Implicit Types (w : World) (n s o : Node) (md : TrackingMetadata).
Implicit Types (g : generator) (cs : list Change) (c : Change).

(** *** Updating one node *)

Lemma on_metadata_id n : on_metadata (λ md, md) n = n.
Proof. by destruct n. Qed.

Lemma on_metadata_compose f h n :
  on_metadata f (on_metadata h n) = on_metadata (f ∘ h) n.
Proof. done. Qed.

Lemma upd_id a w : upd a (on_metadata (λ md, md)) w = w.
Proof.
  destruct w as [hp c]; unfold upd; simpl; f_equal.
  apply list_alter_id, on_metadata_id.
Qed.

Lemma upd_upd a f h w : upd a f (upd a h w) = upd a (f ∘ h) w.
Proof. unfold upd; simpl; f_equal. apply list_alter_alter_eq. Qed.

Lemma upd_lookup a f w :
  heap (upd a f w) !! a = f <$> heap w !! a.
Proof. unfold upd; simpl. by rewrite list_lookup_alter_eq. Qed.

Lemma upd_lookup_ne a b f w :
  a ≠ b → heap (upd a f w) !! b = heap w !! b.
Proof. intros. unfold upd; simpl. by apply list_lookup_alter_ne. Qed.

Lemma upd_name_gen a f w : _name_gen (upd a f w) = _name_gen w.
Proof. done. Qed.

Lemma upd_length a f w : length (heap (upd a f w)) = length (heap w).
Proof. unfold upd; simpl. apply length_alter. Qed.

(** *** One request to the generator *)

(** A request either yields a change, which it has just stored on the
    node called [self], or ends the generator and writes nothing. *)
Local Ltac gen_ends :=
  right; simpl; split; [reflexivity|intros ? ?; discriminate].

Lemma resume_cases self other todo w :
  (∃ c todo',
      resume self other todo w
      = (Yield c (mkGen self other (Some todo')),
         upd self (on_metadata (λ md, record md c)) w)
      ∧ (∃ skipped, todo = skipped ++ change_id c :: todo')
      ∧ match c with Switch _ => False | _ => True end)
  ∨ (resume self other todo w).2 = w
    ∧ (∀ c g', (resume self other todo w).1 ≠ Yield c g').
Proof.
  induction todo as [|var_id todo IH]; simpl; [gen_ends|].
  destruct (heap w !! self) as [s|]; [|gen_ends].
  destruct (heap w !! other) as [o|]; [|gen_ends].
  destruct (data (metadata o) !! var_id) as [new|]; [|gen_ends].
  destruct (data (metadata s) !! var_id) as [old|].
  - destruct (has_diff new old).
    + left. exists (Modification (mkVarModification var_id old new)), todo.
      split; [reflexivity|]. split; [by exists []|done].
    + destruct IH as [(c & todo' & -> & [sk ->] & Hc)|[Hw Hy]].
      * left. exists c, todo'. split; [reflexivity|].
        split; [by exists (var_id :: sk)|done].
      * right. by split.
  - left. exists (Appearance (mkVarAppearance var_id new)), todo.
    split; [reflexivity|]. split; [by exists []|done].
Qed.

Lemma gen_next_cases g w :
  (∃ c todo',
      gen_next g w
      = (Yield c (mkGen (g_self g) (g_other g) (Some todo')),
         upd (g_self g) (on_metadata (λ md, record md c)) w)
      ∧ (∃ skipped, todo_of g w = skipped ++ change_id c :: todo')
      ∧ match c with Switch _ => False | _ => True end)
  ∨ (gen_next g w).2 = w ∧ (∀ c g', (gen_next g w).1 ≠ Yield c g').
Proof.
  unfold gen_next, todo_of. destruct (g_todo g) as [todo|].
  - destruct (resume_cases (g_self g) (g_other g) todo w)
      as [(c & t & -> & Hsk & Hc)|?]; [|by right].
    left. by eexists _, _.
  - destruct (heap w !! g_self g) as [s|]; [|gen_ends].
    destruct (heap w !! g_other g) as [o|]; [|gen_ends].
    case_decide; [|gen_ends].
    destruct (resume_cases (g_self g) (g_other g)
                (elements (tracking (metadata o))) w)
      as [(c & t & -> & Hsk & Hc)|?]; [|by right].
    left. by eexists _, _.
Qed.

(** Whatever the consumer does, the world it leaves is the old one with
    exactly the yielded changes stored, in order, on [self]. *)
Lemma islice_world k g w cs st w' :
  islice k g w = (cs, st, w') →
  w' = upd (g_self g) (on_metadata (record_all cs)) w
  ∧ Forall (λ c, match c with Switch _ => False | _ => True end) cs
  ∧ sublist (change_id <$> cs) (todo_of g w).
Proof.
  revert g w cs st w'. induction k as [|k IH]; intros g w cs st w'; simpl.
  - intros [= <- <- <-]. rewrite upd_id. split_and!; [done..|].
    apply sublist_nil_l.
  - destruct (gen_next_cases g w)
      as [(c & todo' & -> & [sk Hsk] & Hc)|[Hw Hy]].
    + destruct (islice k _ _) as [[cs' st'] w''] eqn:Ht.
      intros [= <- <- <-]. apply IH in Ht as (-> & Hcs & Hsub). simpl in *.
      rewrite upd_upd. split_and!; [done|by constructor|].
      rewrite Hsk. apply sublist_inserts_l. by constructor.
    + destruct (gen_next g w) as [[c g'| |e] w0]; simpl in *; subst.
      * by destruct (Hy c g').
      * intros [= <- <- <-]. rewrite upd_id. split_and!; [done..|].
        apply sublist_nil_l.
      * intros [= <- <- <-]. rewrite upd_id. split_and!; [done..|].
        apply sublist_nil_l.
Qed.

Lemma record_all_fields cs md :
  var_appearances (record_all cs md) = var_appearances md ++ appearances_of cs
  ∧ var_modifications (record_all cs md)
    = var_modifications md ++ modifications_of cs
  ∧ var_switches (record_all cs md) = var_switches md ++ switches_of cs
  ∧ tracking (record_all cs md) = tracking md
  ∧ data (record_all cs md) = data md
  ∧ data_before_return (record_all cs md) = data_before_return md
  ∧ param_to_arg (record_all cs md) = param_to_arg md
  ∧ arg_to_param (record_all cs md) = arg_to_param md
  ∧ code_str (record_all cs md) = code_str md
  ∧ code_ast (record_all cs md) = code_ast md.
Proof.
  revert md. induction cs as [|c cs IH]; intros md; simpl.
  - by rewrite !app_nil_r.
  - unfold record_all in *; simpl.
    destruct (IH (record md c)) as (-> & -> & -> & -> & -> & -> & -> & -> & -> & ->).
    destruct c; simpl; by rewrite <- ?app_assoc.
Qed.

(** *** The changes of a whole diff, read off the two snapshots *)

Lemma on_metadata_record_data c n :
  data (metadata (on_metadata (λ md, record md c) n)) = data (metadata n).
Proof. by destruct c. Qed.

Lemma resume_events self other todo w s o :
  heap w !! self = Some s → heap w !! other = Some o →
  Forall (λ var_id, is_Some (data (metadata o) !! var_id)) todo →
  match events_between (data (metadata s)) (data (metadata o)) todo with
  | [] => resume self other todo w = (StopIteration, w)
  | c :: rest =>
      ∃ todo',
        resume self other todo w
        = (Yield c (mkGen self other (Some todo')),
           upd self (on_metadata (λ md, record md c)) w)
        ∧ events_between (data (metadata s)) (data (metadata o)) todo' = rest
        ∧ Forall (λ var_id, is_Some (data (metadata o) !! var_id)) todo'
  end.
Proof.
  intros Hs Ho. induction todo as [|var_id todo IH]; intros Hall; [done|].
  apply Forall_cons in Hall as [[new Hnew] Hall]. specialize (IH Hall).
  unfold events_between in *. simpl. rewrite Hs, Ho, Hnew. simpl.
  destruct (data (metadata s) !! var_id) as [old|]; simpl.
  - destruct (has_diff new old); simpl; [by exists todo|done].
  - by exists todo.
Qed.

Lemma islice_events k self other todo w s o :
  heap w !! self = Some s → heap w !! other = Some o →
  Forall (λ var_id, is_Some (data (metadata o) !! var_id)) todo →
  let evs := events_between (data (metadata s)) (data (metadata o)) todo in
  ∃ st,
    islice k (mkGen self other (Some todo)) w
    = (firstn k evs, st, upd self (on_metadata (record_all (firstn k evs))) w)
    ∧ (length evs < k → st = Exhausted).
Proof.
  revert todo w s o. induction k as [|k IH]; intros todo w s o Hs Ho Hall evs.
  - exists (Suspended (mkGen self other (Some todo))). simpl.
    rewrite upd_id. split; [done|lia].
  - pose proof (resume_events self other todo w s o Hs Ho Hall) as Hr.
    subst evs. simpl. unfold gen_next; simpl.
    destruct (events_between _ _ todo) as [|c rest] eqn:Hev.
    + rewrite Hr. exists Exhausted. by rewrite upd_id.
    + destruct Hr as (todo' & -> & Hrest & Hall').
      set (w1 := upd self (on_metadata (λ md, record md c)) w).
      assert (∃ s1, heap w1 !! self = Some s1
                    ∧ data (metadata s1) = data (metadata s)) as (s1 & Hs1 & Ds).
      { eexists. unfold w1. rewrite upd_lookup, Hs. split; [done|].
        apply on_metadata_record_data. }
      assert (∃ o1, heap w1 !! other = Some o1
                    ∧ data (metadata o1) = data (metadata o)) as (o1 & Ho1 & Do).
      { destruct (decide (self = other)) as [->|Hne].
        - exists s1. split; [done|]. rewrite Ds. congruence.
        - exists o. unfold w1. by rewrite upd_lookup_ne. }
      rewrite <- Do in Hall'.
      destruct (IH todo' w1 s1 o1 Hs1 Ho1 Hall') as (st & Hst & Hex).
      rewrite Ds, Do, Hrest in Hst, Hex. rewrite Hst.
      exists st. unfold w1. rewrite upd_upd. split; [done|].
      simpl. intros. apply Hex. lia.
Qed.

Lemma events_between_length old new ids :
  length (events_between old new ids) ≤ length ids.
Proof.
  unfold events_between. induction ids as [|i ids IH]; simpl; [done|].
  destruct (new !! i ≫= classify i (old !! i)); simpl;
    [apply le_n_S, IH|apply le_S, IH].
Qed.

(** Consuming the whole generator of a diff between two nodes of one
    frame, the later of which tracks only identifiers it has data for:
    the changes are those of [events_between], and they are stored on
    [self]. *)
Lemma list_var_changes_spec self other w s o :
  heap w !! self = Some s → heap w !! other = Some o →
  frame_id s = frame_id o →
  tracking (metadata o) ⊆ dom (data (metadata o)) →
  let evs := events_between (data (metadata s)) (data (metadata o))
               (elements (tracking (metadata o))) in
  list_var_changes self other w
  = (evs, Exhausted, upd self (on_metadata (record_all evs)) w).
Proof.
  intros Hs Ho Hf Hsub evs. unfold list_var_changes. rewrite Ho.
  assert (Forall (λ var_id, is_Some (data (metadata o) !! var_id))
            (elements (tracking (metadata o)))) as Hall.
  { apply Forall_forall. intros i Hi. apply elem_of_dom, Hsub.
    by apply elem_of_elements. }
  destruct (islice_events (S (size (tracking (metadata o)))) self other
              _ w s o Hs Ho Hall) as (st & Hst & Hex).
  fold evs in Hst, Hex.
  assert (length evs ≤ size (tracking (metadata o))) as Hlen.
  { unfold evs. etrans; [apply events_between_length|]. done. }
  rewrite firstn_all2 in Hst by lia. rewrite Hex in Hst by lia.
  rewrite <- Hst. simpl. unfold gen_next; simpl. rewrite Hs, Ho.
  by rewrite decide_True.
Qed.

(** *** The comparison before return *)

Lemma record_all_cons c cs md :
  record_all (c :: cs) md = record_all cs (record md c).
Proof. done. Qed.

Lemma before_return_loop_cases todo n r n' :
  before_return_loop n todo = (r, n') →
  ∃ cs,
    n' = on_metadata (record_all cs) n
    ∧ sublist (change_id <$> cs) todo
    ∧ Forall (λ c, match c with Switch _ => False | _ => True end) cs.
Proof.
  revert n. induction todo as [|var_id todo IH]; intros n; simpl.
  - intros [= <- <-]. exists []. by rewrite on_metadata_id.
  - destruct (data_before_return (metadata n)) as [b|]; simpl;
      [|intros [= <- <-]; exists []; rewrite on_metadata_id;
        split_and!; [done|apply sublist_nil_l|done]].
    destruct (b !! var_id) as [new|];
      [|intros [= <- <-]; exists []; rewrite on_metadata_id;
        split_and!; [done|apply sublist_nil_l|done]].
    destruct (data (metadata n) !! var_id) as [old|].
    + destruct (has_diff new old).
      * intros (cs & -> & Hsub & Hns)%IH.
        exists (Modification (mkVarModification var_id old new) :: cs).
        split_and!; [done|by constructor|by constructor].
      * intros (cs & -> & Hsub & Hns)%IH. exists cs.
        split_and!; [done|by constructor|done].
    + intros (cs & -> & Hsub & Hns)%IH.
      exists (Appearance (mkVarAppearance var_id new) :: cs).
      split_and!; [done|by constructor|by constructor].
Qed.

(** With [data_before_return] present and holding every identifier the
    loop visits, the loop returns, having stored the changes between
    [data] and [data_before_return]. *)
Lemma before_return_loop_ok todo n b :
  data_before_return (metadata n) = Some b →
  Forall (λ var_id, is_Some (b !! var_id)) todo →
  before_return_loop n todo
  = (Ok (), on_metadata (record_all (events_between (data (metadata n)) b todo)) n).
Proof.
  revert n. induction todo as [|var_id todo IH]; intros n Hb Hall.
  - simpl. by rewrite on_metadata_id.
  - apply Forall_cons in Hall as [[new Hnew] Hall].
    unfold events_between in *. simpl. rewrite Hb, Hnew. simpl.
    destruct (data (metadata n) !! var_id) as [old|]; simpl.
    + destruct (has_diff new old); simpl.
      * by rewrite IH.
      * by apply IH.
    + by rewrite IH.
Qed.

Lemma elem_of_appearances_of a cs :
  a ∈ appearances_of cs ↔ Appearance a ∈ cs.
Proof.
  unfold appearances_of. rewrite list_elem_of_omap. split.
  - intros (c & Hc & Heq). destruct c; by simplify_eq.
  - intros Hc. by exists (Appearance a).
Qed.

Lemma elem_of_modifications_of m cs :
  m ∈ modifications_of cs ↔ Modification m ∈ cs.
Proof.
  unfold modifications_of. rewrite list_elem_of_omap. split.
  - intros (c & Hc & Heq). destruct c; by simplify_eq.
  - intros Hc. by exists (Modification m).
Qed.

Lemma no_switch_switches_of cs :
  Forall (λ c, match c with Switch _ => False | _ => True end) cs →
  switches_of cs = [].
Proof.
  induction 1 as [|c cs Hc _ IH]; [done|].
  unfold switches_of in *. simpl. by destruct c.
Qed.

Lemma change_id_in_sublist c cs (ids : list ID) :
  sublist (change_id <$> cs) ids → c ∈ cs → change_id c ∈ ids.
Proof.
  intros Hsub Hc. eapply elem_of_sublist; [|done].
  by apply list_elem_of_fmap_2.
Qed.

(** *** Claims on the diff *)

(** C1 (amended).  For two nodes of one frame, the later of which tracks
    only identifiers it has data for, the diff runs to its end and emits
    [Appearance(id, new_value)] for every tracked identifier absent from
    the earlier snapshot, and it never emits a [Switch]: this holds for
    every [param_to_arg] of either node, hence also for an identifier
    that [get_args()] returns. *)
Theorem diff_absent_identifier_is_appearance self other w s o :
  heap w !! self = Some s → heap w !! other = Some o →
  frame_id s = frame_id o →
  tracking (metadata o) ⊆ dom (data (metadata o)) →
  ∃ cs w',
    list_var_changes self other w = (cs, Exhausted, w')
    ∧ switches_of cs = []
    ∧ ∀ var_id new,
        var_id ∈ tracking (metadata o) →
        data (metadata s) !! var_id = None →
        data (metadata o) !! var_id = Some new →
        Appearance (mkVarAppearance var_id new) ∈ cs
        ∧ ∀ param, Switch (mkVarSwitch var_id param new) ∉ cs.
Proof.
  intros Hs Ho Hf Hsub.
  pose proof (list_var_changes_spec self other w s o Hs Ho Hf Hsub) as Hspec.
  simpl in Hspec. eexists _, _. split; [exact Hspec|].
  unfold list_var_changes in Hspec. rewrite Ho in Hspec.
  apply islice_world in Hspec as (_ & Hns & _).
  split; [by apply no_switch_switches_of|].
  intros var_id new Ht Hold Hnew. split.
  - unfold events_between. apply list_elem_of_omap. exists var_id.
    split; [by apply elem_of_elements|]. by rewrite Hnew, Hold.
  - intros param Hin. rewrite Forall_forall in Hns. by apply Hns in Hin.
Qed.

(** C2 (amended).  However many changes the caller takes from the diff
    of [self] (the earlier node, "current" in the docstring) against
    [other] (the later node), each change emitted is appended to the
    sequences of [self]: appearances to [var_appearances], modifications
    to [var_modifications]; [var_switches] is not written, and every
    other node, the later one included, is left as it was. *)
Theorem diff_events_stored_on_self k self other w cs st w' s :
  heap w !! self = Some s →
  islice k (get_and_update_var_changes self other) w = (cs, st, w') →
  (∃ s',
      heap w' !! self = Some s'
      ∧ var_appearances (metadata s')
        = var_appearances (metadata s) ++ appearances_of cs
      ∧ var_modifications (metadata s')
        = var_modifications (metadata s) ++ modifications_of cs
      ∧ var_switches (metadata s') = var_switches (metadata s))
  ∧ (∀ b, b ≠ self → heap w' !! b = heap w !! b).
Proof.
  intros Hs (-> & Hns & _)%islice_world.
  unfold get_and_update_var_changes; cbn [g_self]. split.
  - eexists. rewrite upd_lookup, Hs. split; [done|]. simpl.
    destruct (record_all_fields cs (metadata s)) as (-> & -> & -> & _).
    rewrite (no_switch_switches_of _ Hns), app_nil_r. done.
  - intros b Hb. by rewrite upd_lookup_ne.
Qed.

(** C3 (amended).  Every change a diff of [self] against [other] records
    is recorded on [self] and names an identifier of the tracking set of
    [other], the later node; every change the comparison before return
    records on a node names an identifier of that node's own tracking
    set.  Neither writes [var_switches] nor alters a tracking set. *)
Theorem recorded_identifiers_are_tracked k self other w cs st w' s o n r n' :
  heap w !! self = Some s → heap w !! other = Some o →
  islice k (get_and_update_var_changes self other) w = (cs, st, w') →
  update_var_changes_before_return n = (r, n') →
  (∃ s',
      heap w' !! self = Some s'
      ∧ var_appearances (metadata s')
        = var_appearances (metadata s) ++ appearances_of cs
      ∧ var_modifications (metadata s')
        = var_modifications (metadata s) ++ modifications_of cs
      ∧ var_switches (metadata s') = var_switches (metadata s)
      ∧ tracking (metadata s') = tracking (metadata s)
      ∧ (∀ a, a ∈ appearances_of cs → ap_id a ∈ tracking (metadata o))
      ∧ (∀ m, m ∈ modifications_of cs → mod_id m ∈ tracking (metadata o)))
  ∧ (∃ la lm,
      var_appearances (metadata n') = var_appearances (metadata n) ++ la
      ∧ var_modifications (metadata n') = var_modifications (metadata n) ++ lm
      ∧ var_switches (metadata n') = var_switches (metadata n)
      ∧ tracking (metadata n') = tracking (metadata n)
      ∧ (∀ a, a ∈ la → ap_id a ∈ tracking (metadata n))
      ∧ (∀ m, m ∈ lm → mod_id m ∈ tracking (metadata n))).
Proof.
  intros Hs Ho Hd Hr. split.
  - apply islice_world in Hd as (-> & Hns & Hsub).
    unfold todo_of in Hsub; simpl in Hsub. rewrite Ho in Hsub.
    unfold get_and_update_var_changes; cbn [g_self].
    eexists. rewrite upd_lookup, Hs. split; [done|]. simpl.
    destruct (record_all_fields cs (metadata s)) as (-> & -> & -> & -> & _).
    rewrite (no_switch_switches_of _ Hns), app_nil_r. split_and!; try done.
    + intros a Ha%elem_of_appearances_of.
      apply elem_of_elements. by apply (change_id_in_sublist _ _ _ Hsub) in Ha.
    + intros m Hm%elem_of_modifications_of.
      apply elem_of_elements. by apply (change_id_in_sublist _ _ _ Hsub) in Hm.
  - apply before_return_loop_cases in Hr as (cs' & -> & Hsub & Hns).
    exists (appearances_of cs'), (modifications_of cs'). simpl.
    destruct (record_all_fields cs' (metadata n)) as (-> & -> & -> & -> & _).
    rewrite (no_switch_switches_of _ Hns), app_nil_r. split_and!; try done.
    + intros a Ha%elem_of_appearances_of.
      apply elem_of_elements. by apply (change_id_in_sublist _ _ _ Hsub) in Ha.
    + intros m Hm%elem_of_modifications_of.
      apply elem_of_elements. by apply (change_id_in_sublist _ _ _ Hsub) in Hm.
Qed.

(** *** Claims on the comparison before return *)

(** C5.  What the code does where the claim promises silence: with
    [data_before_return] unset and a non-empty tracking set the call
    raises [TypeError], recording nothing. *)
Theorem before_return_unset_raises n :
  data_before_return (metadata n) = None →
  tracking (metadata n) ≠ ∅ →
  update_var_changes_before_return n = (Raise TypeError, n).
Proof.
  intros Hnone Hne. unfold update_var_changes_before_return.
  destruct (elements (tracking (metadata n))) as [|var_id todo] eqn:He.
  - apply elements_empty_inv in He. by apply leibniz_equiv in He.
  - simpl. by rewrite Hnone.
Qed.

(** C7 (amended).  With [data_before_return] set and holding every tracked
    identifier, the comparison returns normally and appends to the node,
    for every tracked identifier in iteration order, a
    [Modification(id, old, new)] exactly when [has_diff(new, old)], [old]
    being the value in [data] and [new] the one in
    [data_before_return] (and an [Appearance] when [data] has none). *)
Theorem before_return_records_modifications n b :
  data_before_return (metadata n) = Some b →
  tracking (metadata n) ⊆ dom b →
  ∃ n',
    update_var_changes_before_return n = (Ok (), n')
    ∧ var_modifications (metadata n')
      = var_modifications (metadata n)
        ++ omap (λ var_id,
                   old ← data (metadata n) !! var_id;
                   new ← b !! var_id;
                   if has_diff new old
                   then Some (mkVarModification var_id old new) else None)
                (elements (tracking (metadata n)))
    ∧ var_appearances (metadata n')
      = var_appearances (metadata n)
        ++ omap (λ var_id,
                   match data (metadata n) !! var_id with
                   | Some _ => None
                   | None => mkVarAppearance var_id <$> b !! var_id
                   end)
                (elements (tracking (metadata n)))
    ∧ var_switches (metadata n') = var_switches (metadata n)
    ∧ tracking (metadata n') = tracking (metadata n)
    ∧ data (metadata n') = data (metadata n).
Proof.
  intros Hb Hsub. unfold update_var_changes_before_return.
  assert (Forall (λ var_id, is_Some (b !! var_id))
            (elements (tracking (metadata n)))) as Hall.
  { apply Forall_forall. intros i Hi. apply elem_of_dom, Hsub.
    by apply elem_of_elements. }
  rewrite (before_return_loop_ok _ n b Hb Hall). eexists. split; [done|].
  simpl.
  destruct (record_all_fields
              (events_between (data (metadata n)) b
                 (elements (tracking (metadata n)))) (metadata n))
    as (-> & -> & -> & -> & -> & _).
  assert (∀ ids,
    modifications_of (events_between (data (metadata n)) b ids)
    = omap (λ var_id,
              old ← data (metadata n) !! var_id;
              new ← b !! var_id;
              if has_diff new old
              then Some (mkVarModification var_id old new) else None) ids
    ∧ appearances_of (events_between (data (metadata n)) b ids)
      = omap (λ var_id,
                match data (metadata n) !! var_id with
                | Some _ => None
                | None => mkVarAppearance var_id <$> b !! var_id
                end) ids
    ∧ switches_of (events_between (data (metadata n)) b ids) = []) as Hev.
  { unfold events_between, modifications_of, appearances_of, switches_of.
    induction ids as [|i ids (IHm & IHa & IHs)]; [done|]. simpl.
    destruct (b !! i) as [new|]; simpl;
      destruct (data (metadata n) !! i) as [old|]; simpl;
      try destruct (has_diff new old); simpl;
      (split_and!; try f_equal; first [exact IHm|exact IHa|exact IHs]). }
  destruct (Hev (elements (tracking (metadata n)))) as (-> & -> & ->).
  by rewrite app_nil_r.
Qed.

(** *** Claims on the construction of the metadata *)

(** What a construction that returns has stored, whichever converter it
    called. *)
Lemma TrackingMetadata_init_Ok kw md :
  TrackingMetadata_init kw = Ok md →
  param_to_arg md = kw_param_to_arg kw
  ∧ arg_to_param md
    = (if truthy_dict (kw_param_to_arg kw)
       then build_arg_to_param <$> kw_param_to_arg kw else None)
  ∧ tracking md = ∅
  ∧ var_appearances md = []
  ∧ var_modifications md = []
  ∧ var_switches md = []
  ∧ data md = kw_data kw
  ∧ data_before_return md = kw_data_before_return kw.
Proof.
  unfold TrackingMetadata_init, rbind. intros Hinit.
  destruct (negb _); [done|].
  repeat match type of Hinit with
         | match ?r with _ => _ end = _ => destruct r; try discriminate
         end.
  all: by injection Hinit as <-.
Qed.

(** C8 (amended).  [TrackingMetadata.__init__] raises the [ValueError] of
    its check when [code_str] is [None] or empty and [code_ast] is [None]
    (an empty [code_str] counts as not given).  Given both, it keeps both
    and calls no converter.  Given a non-empty [code_str] only, it returns
    exactly when [utils.parse_code_str] does, with the text kept and the
    tree parsed from it; given a [code_ast] only, it returns exactly when
    [astor.to_source] does, with the tree kept and the text produced from
    it; an exception of the converter is the constructor's.  It fails in
    no other way. *)
Theorem metadata_init_raises_iff_both_falsy kw :
  ((kw_code_str kw = None ∨ kw_code_str kw = Some "")
   → kw_code_ast kw = None
   → TrackingMetadata_init kw
     = Raise (ValueError "Should provide code_str or code_ast."))
  ∧ (∀ ch str a,
       kw_code_str kw = Some (String ch str) → kw_code_ast kw = Some a →
       ∃ md, TrackingMetadata_init kw = Ok md
             ∧ code_str md = String ch str ∧ code_ast md = a)
  ∧ (∀ ch str,
       kw_code_str kw = Some (String ch str) → kw_code_ast kw = None →
       match parse_code_str (String ch str) with
       | Ok a => ∃ md, TrackingMetadata_init kw = Ok md
                       ∧ code_str md = String ch str ∧ code_ast md = a
       | Raise e => TrackingMetadata_init kw = Raise e
       end)
  ∧ (∀ a,
       (kw_code_str kw = None ∨ kw_code_str kw = Some "") →
       kw_code_ast kw = Some a →
       match to_source a with
       | Ok src => ∃ md, TrackingMetadata_init kw = Ok md
                         ∧ code_str md = src ∧ code_ast md = a
       | Raise e => TrackingMetadata_init kw = Raise e
       end)
  ∧ (∀ e,
       TrackingMetadata_init kw = Raise e →
       ((kw_code_str kw = None ∨ kw_code_str kw = Some "")
        ∧ kw_code_ast kw = None
        ∧ e = ValueError "Should provide code_str or code_ast.")
       ∨ (∃ ch str, kw_code_str kw = Some (String ch str)
                    ∧ kw_code_ast kw = None
                    ∧ parse_code_str (String ch str) = Raise e)
       ∨ (∃ a, (kw_code_str kw = None ∨ kw_code_str kw = Some "")
               ∧ kw_code_ast kw = Some a
               ∧ to_source a = Raise e)).
Proof.
  unfold TrackingMetadata_init, rbind.
  destruct (kw_code_str kw) as [[|ch str]|] eqn:Hs,
           (kw_code_ast kw) as [a|] eqn:Ha; simpl.
  - (* empty text, a tree *)
    split_and!.
    + done.
    + done.
    + done.
    + intros a' _ [= <-]. destruct (to_source a) as [src|e]; [eauto|done].
    + intros e He. right; right. exists a. split_and!; [by right|done|].
      destruct (to_source a); congruence.
  - (* empty text, no tree *)
    split_and!; try done.
    intros e [= <-]. left. split_and!; [by right|done..].
  - (* a text and a tree *)
    split_and!; try done.
    + intros ch' str' a' [= <- <-] [= <-]. eauto.
    + intros a' [?|?]; done.
  - (* a text, no tree *)
    split_and!; try done.
    + intros [?|?]; done.
    + intros ch' str' [= <- <-] _.
      destruct (parse_code_str (String ch str)) as [a|e]; [eauto|done].
    + intros e He. right; left. exists ch, str. split_and!; [done..|].
      destruct (parse_code_str (String ch str)); congruence.
  - (* no text, a tree *)
    split_and!; try done.
    + intros a' _ [= <-]. destruct (to_source a) as [src|e]; [eauto|done].
    + intros e He. right; right. exists a. split_and!; [by left|done|].
      destruct (to_source a); congruence.
  - (* neither *)
    split_and!; try done.
    intros e [= <-]. left. split_and!; [by left|done..].
Qed.

(** *** [param_to_arg] and its inverse *)



Lemma fill_args_lookup (param : ID) (args : list ID) (m : gmap ID ID) a :
  foldl (λ m' arg, <[arg := param]> m') m args !! a
  = if decide (a ∈ args) then Some param else m !! a.
Proof.
  revert m. induction args as [|arg args IH]; intros m; simpl; [done|].
  rewrite IH. destruct (decide (a = arg)) as [->|Hne].
  - rewrite lookup_insert_eq. rewrite (decide_True (P := arg ∈ arg :: args));
      [by case_decide|by left].
  - rewrite lookup_insert_ne by done.
    destruct (decide (a ∈ args)) as [Ha|Ha].
    + rewrite decide_True; [done|by right].
    + rewrite decide_False; [done|]. by intros [?|?]%elem_of_cons.
Qed.



(** *** Invariants of every program *)

Lemma same_node_refl n : same_node n n.
Proof. by split. Qed.

Lemma same_node_trans n1 n2 n3 :
  same_node n1 n2 → same_node n2 n3 → same_node n1 n3.
Proof. intros [E1 I1] [E2 I2]. split; [congruence|auto]. Qed.

Lemma evolves_refl w : evolves w w.
Proof. split; [done|]. apply Forall_Forall2_diag, Forall_forall. by split. Qed.

Lemma evolves_trans w1 w2 w3 : evolves w1 w2 → evolves w2 w3 → evolves w1 w3.
Proof.
  intros [E1 F1] [E2 F2]. split; [congruence|].
  eapply Forall2_trans; [|done..]. apply same_node_trans.
Qed.

Lemma upd_evolves a f w : (∀ n, same_node n (f n)) → evolves w (upd a f w).
Proof.
  intros Hf. split; [done|]. unfold upd; simpl.
  generalize (heap w). intros l. revert a.
  induction l as [|n l IH]; intros [|a]; simpl; [constructor..| |].
  - constructor; [apply Hf|].
    apply Forall_Forall2_diag, Forall_forall. intros; apply same_node_refl.
  - constructor; [apply same_node_refl|apply IH].
Qed.

Lemma add_tracking_spec md new_ids :
  data (add_tracking md new_ids) = data md
  ∧ ∀ var_id,
      var_id ∈ tracking (add_tracking md new_ids)
      ↔ var_id ∈ tracking md
        ∨ (var_id ∈ new_ids ∧ is_Some (data md !! var_id)).
Proof.
  unfold add_tracking. revert md.
  induction new_ids as [|new_id new_ids IH]; intros md; simpl.
  - split; [done|]. intros i. split; [by left|].
    by intros [?|[?%elem_of_nil _]].
  - case_decide as Hin.
    + destruct (IH (set_tracking md ({[new_id]} ∪ tracking md))) as [-> Ht].
      split; [done|]. intros i. rewrite Ht. simpl.
      rewrite elem_of_union, elem_of_singleton, elem_of_cons.
      split; [intros [[->|?]|[? ?]]; auto|].
      intros [?|[[->|?] ?]]; auto.
    + destruct (IH md) as [-> Ht]. split; [done|]. intros i. rewrite Ht.
      rewrite elem_of_cons.
      split; [intros [?|[? ?]]; auto|].
      intros [?|[[->|?] ?]]; auto. by destruct Hin.
Qed.

Lemma add_tracking_same_node new_ids n :
  same_node n (on_metadata (λ md, add_tracking md new_ids) n).
Proof.
  split; [done|]. unfold tracking_in_data. simpl.
  destruct (add_tracking_spec (metadata n) new_ids) as [-> Ht].
  intros Hok i [?|[_ ?]]%Ht; [by apply Hok|by apply elem_of_dom].
Qed.

Lemma record_all_same_node cs n : same_node n (on_metadata (record_all cs) n).
Proof.
  split; [done|]. unfold tracking_in_data. simpl.
  by destruct (record_all_fields cs (metadata n))
    as (_ & _ & _ & -> & -> & _).
Qed.

Lemma setattr_fields n relation_name r :
  metadata (setattr n relation_name r) = metadata n
  ∧ name (setattr n relation_name r) = name n
  ∧ frame_id (setattr n relation_name r) = frame_id n.
Proof. unfold setattr. by repeat case_decide. Qed.

Lemma setattr_same_node n relation_name r :
  same_node n (setattr n relation_name r).
Proof.
  destruct (setattr_fields n relation_name r) as (Hm & Hn & _).
  split; [done|]. unfold tracking_in_data. by rewrite Hm.
Qed.

Lemma build_relation_same_node relation_dict n :
  same_node n (build_relation n relation_dict).2.
Proof.
  revert n. induction relation_dict as [|[rn r] rd IH]; intros n; simpl.
  - apply same_node_refl.
  - case_decide; [|apply same_node_refl].
    eapply same_node_trans; [apply setattr_same_node|apply IH].
Qed.

Lemma Flow_init_evolves start target w :
  evolves w (Flow_init start target w).2.
Proof.
  unfold Flow_init, _update_target_id.
  set (w1 := upd start _ w).
  assert (evolves w w1) as H1.
  { apply upd_evolves. intros n. apply setattr_same_node. }
  destruct (heap w1 !! target) as [t|]; [|done].
  destruct (target_id t) as [i|e]; [|done].
  eapply evolves_trans; [done|].
  apply upd_evolves. intros n. apply (add_tracking_same_node [i]).
Qed.

(** A call constructs one node, named after the counter, or none. *)
Lemma exec_cases op w :
  evolves w (exec op w)
  ∨ ∃ n,
      exec op w = {| heap := heap w ++ [n]; _name_gen := S (_name_gen w) |}
      ∧ name n = pretty (_name_gen w)
      ∧ tracking (metadata n) = ∅.
Proof.
  destruct op; simpl.
  - unfold Node_init.
    destruct (TrackingMetadata_init kw) as [md|e] eqn:Hinit; simpl;
      [|left; apply evolves_refl].
    apply TrackingMetadata_init_Ok in Hinit as (_ & _ & Htrk & _).
    right. by eexists.
  - left. apply upd_evolves. intros n. apply build_relation_same_node.
  - left. apply upd_evolves. intros n. apply add_tracking_same_node.
  - left. destruct (heap w !! other) as [o|]; [|apply evolves_refl].
    apply upd_evolves. intros n. apply add_tracking_same_node.
  - left. by apply upd_evolves.
  - left. by apply upd_evolves.
  - left. by apply upd_evolves.
  - left. destruct (islice k _ w) as [[cs st] w'] eqn:Hk.
    apply islice_world in Hk as (-> & _). simpl.
    apply upd_evolves. intros n. apply record_all_same_node.
  - left. apply upd_evolves. intros n.
    destruct (update_var_changes_before_return n) as [r n'] eqn:Hr.
    apply before_return_loop_cases in Hr as (cs & -> & _). simpl.
    apply record_all_same_node.
  - left. apply Flow_init_evolves.
Qed.

Lemma run_snoc ops op w : run (ops ++ [op]) w = exec op (run ops w).
Proof. unfold run. by rewrite foldl_app. Qed.

(** In every world a program can reach, the counter equals the number of
    nodes, the node at address [i] is named by the decimal text of [i],
    and every node tracks only what its snapshot holds. *)
Lemma run_invariant ops :
  _name_gen (run ops initial_world) = length (heap (run ops initial_world))
  ∧ ∀ i n, heap (run ops initial_world) !! i = Some n →
           name n = pretty i ∧ tracking_in_data n.
Proof.
  induction ops as [|op ops [IHc IHn]] using rev_ind.
  - split; [done|]. intros i n Hi. simpl in Hi. by rewrite lookup_nil in Hi.
  - rewrite run_snoc. set (w := run ops initial_world) in *.
    destruct (exec_cases op w) as [[Hc HF]|(n0 & -> & Hname & Htr)].
    + split; [rewrite Hc, IHc; by apply Forall2_length in HF|].
      intros i n Hi.
      destruct (Forall2_lookup_r _ _ _ _ _ HF Hi) as (n1 & Hn1 & Hname & Hok).
      destruct (IHn i n1 Hn1) as [Hp Ht]. split; [congruence|auto].
    + simpl. split; [rewrite length_app; simpl; lia|].
      intros i n [Hi|[Hle Hi]]%lookup_app_Some; [by apply IHn|].
      apply list_lookup_singleton_Some in Hi as [Hi <-].
      split; [|unfold tracking_in_data; rewrite Htr; set_solver].
      rewrite Hname, IHc. f_equal. lia.
Qed.

(** C6.  In every world a program over the flow API reaches, every node
    tracks only identifiers present in its [data]; [add_tracking] is
    total, leaves [data] alone, and afterwards tracks exactly what was
    tracked before plus those of the given identifiers that [data]
    holds, the others being dropped. *)
Theorem tracking_within_data ops i n :
  heap (run ops initial_world) !! i = Some n →
  tracking (metadata n) ⊆ dom (data (metadata n))
  ∧ ∀ new_ids,
      data (add_tracking (metadata n) new_ids) = data (metadata n)
      ∧ tracking (add_tracking (metadata n) new_ids)
        ⊆ dom (data (add_tracking (metadata n) new_ids))
      ∧ ∀ var_id,
          var_id ∈ tracking (add_tracking (metadata n) new_ids)
          ↔ var_id ∈ tracking (metadata n)
            ∨ (var_id ∈ new_ids ∧ var_id ∈ dom (data (metadata n))).
Proof.
  intros Hn. destruct (run_invariant ops) as [_ Hinv].
  destruct (Hinv i n Hn) as [_ Hok]. split; [done|]. intros new_ids.
  destruct (add_tracking_spec (metadata n) new_ids) as [Hd Ht].
  split; [done|]. split.
  - rewrite Hd. intros var_id [?|[_ ?]]%Ht; [by apply Hok|].
    by apply elem_of_dom.
  - intros var_id. rewrite Ht. by rewrite elem_of_dom.
Qed.

(** C10.  In every world a program over the flow API reaches, two
    different nodes have different names: a node's name is the decimal
    text of the value the shared counter had when the node was
    constructed, and these values grow strictly with the order of
    construction. *)
Theorem node_names_distinct ops i j ni nj :
  heap (run ops initial_world) !! i = Some ni →
  heap (run ops initial_world) !! j = Some nj →
  i ≠ j →
  name ni ≠ name nj
  ∧ ∃ ki kj,
      name ni = pretty ki ∧ name nj = pretty kj
      ∧ ki < _name_gen (run ops initial_world)
      ∧ kj < _name_gen (run ops initial_world)
      ∧ (i < j ↔ ki < kj).
Proof.
  intros Hi Hj Hne. destruct (run_invariant ops) as [Hc Hinv].
  destruct (Hinv i ni Hi) as [Hni _], (Hinv j nj Hj) as [Hnj _]. split.
  - rewrite Hni, Hnj. intros Heq. by apply (inj pretty) in Heq.
  - exists i, j. rewrite Hc.
    apply lookup_lt_Some in Hi, Hj. by split_and!.
Qed.

(** *** Claims on the construction of a flow *)

Lemma target_id_setattr t relation_name r :
  target_id (setattr t relation_name r) = target_id t.
Proof.
  unfold target_id.
  by destruct (setattr_fields t relation_name r) as (-> & _ & ->).
Qed.


End FlowProperties.


(** ** Further properties of [flow.py] *)

Section MoreFlowProperties.
Context `{Ext : External}.

Implicit Types (w : World) (n s o : Node) (md : TrackingMetadata).
Implicit Types (g : generator) (cs : list Change) (c : Change).

(** *** [build_relation] and [is_callsite] *)

Lemma dict_get_not_in {K V} `{EqDecision K} (d : pydict K V) k :
  k ∉ d.*1 → dict_get d k = None.
Proof.
  induction d as [|[k' v] d IH]; simpl; [done|].
  intros Hk. apply not_elem_of_cons in Hk as [Hne Hk].
  rewrite decide_False by done. by apply IH.
Qed.

Lemma setattr_relations n relation_name r :
  relation_name ∈ relation_names →
  prev (setattr n relation_name r)
  = (if decide (relation_name = "prev") then r else prev n)
  ∧ next (setattr n relation_name r)
    = (if decide (relation_name = "next") then r else next n)
  ∧ step_into (setattr n relation_name r)
    = (if decide (relation_name = "step_into") then r else step_into n)
  ∧ returned_from (setattr n relation_name r)
    = (if decide (relation_name = "returned_from") then r
       else returned_from n).
Proof.
  unfold relation_names. rewrite !elem_of_cons, elem_of_nil.
  intros [->|[->|[->|[->|[]]]]]; by vm_compute.
Qed.

(** X1.  Given only known relation names, each once, [build_relation]
    returns normally; every named relation then holds the given object,
    every other relation is as before, and metadata, name and frame are
    untouched. *)
Theorem build_relation_sets_named_relations n relation_dict :
  NoDup relation_dict.*1 →
  Forall (λ kv, kv.1 ∈ relation_names) relation_dict →
  ∃ n',
    build_relation n relation_dict = (Ok (), n')
    ∧ prev n' = default (prev n) (dict_get relation_dict "prev")
    ∧ next n' = default (next n) (dict_get relation_dict "next")
    ∧ step_into n' = default (step_into n) (dict_get relation_dict "step_into")
    ∧ returned_from n'
      = default (returned_from n) (dict_get relation_dict "returned_from")
    ∧ metadata n' = metadata n ∧ name n' = name n
    ∧ frame_id n' = frame_id n.
Proof.
  revert n. induction relation_dict as [|[rn r] rd IH]; intros n Hnd Hall.
  - by exists n.
  - apply NoDup_cons in Hnd as [Hrn Hnd].
    apply Forall_cons in Hall as [Hin Hall]. simpl in Hin.
    destruct (IH (setattr n rn r) Hnd Hall)
      as (n' & Hb & Hp & Hn & Hs & Hr & Hm & Hna & Hf).
    exists n'. simpl. rewrite decide_True by done.
    destruct (setattr_fields n rn r) as (Em & En & Ef).
    destruct (setattr_relations n rn r Hin) as (Ep & Enx & Es & Er).
    rewrite Hb, Hp, Hn, Hs, Hr, Hm, Hna, Hf, Em, En, Ef, Ep, Enx, Es, Er.
    split; [done|].
    simpl in Hrn.
    repeat case_decide; subst; try rewrite (dict_get_not_in rd _ Hrn); done.
Qed.

(** X2.  At the first unknown relation name [build_relation] raises
    [Exception("wrong relation_name: " + name)]; the relations named
    before it have been set, those named after it have not. *)
Theorem build_relation_stops_at_wrong_name n before bad r after :
  Forall (λ kv, kv.1 ∈ relation_names) before →
  bad ∉ relation_names →
  build_relation n (before ++ (bad, r) :: after)
  = (Raise (PyException ("wrong relation_name: " +:+ bad)),
     (build_relation n before).2)
  ∧ (build_relation n before).1 = Ok ().
Proof.
  intros Hall Hbad. revert n.
  induction before as [|[rn r'] before IH]; intros n; simpl.
  - by rewrite decide_False.
  - apply Forall_cons in Hall as [Hin Hall]. simpl in Hin.
    rewrite !decide_True by done. by apply IH.
Qed.

(** X3.  After a [build_relation] with known names, each once, the node
    is a call site exactly when [step_into] was given and is not [None],
    or was not given and the node was a call site before. *)
Theorem is_callsite_after_build_relation n relation_dict :
  NoDup relation_dict.*1 →
  Forall (λ kv, kv.1 ∈ relation_names) relation_dict →
  is_callsite (build_relation n relation_dict).2
  = match dict_get relation_dict "step_into" with
    | Some r => bool_decide (r ≠ PyNone)
    | None => is_callsite n
    end.
Proof.
  revert n. induction relation_dict as [|[rn r] rd IH]; intros n Hnd Hall.
  - done.
  - apply NoDup_cons in Hnd as [Hrn Hnd].
    apply Forall_cons in Hall as [Hin Hall]. simpl in Hin.
    simpl. rewrite decide_True by done. rewrite IH by done.
    destruct (setattr_relations n rn r Hin) as (_ & _ & Es & _).
    simpl in Hrn. case_decide as Hs; subst.
    + rewrite (dict_get_not_in rd _ Hrn). unfold is_callsite.
      rewrite Es. by destruct r.
    + destruct (dict_get rd "step_into"); [done|].
      unfold is_callsite. by rewrite Es.
Qed.

(** *** The inverse map built by the constructor *)

Lemma build_arg_to_param_last (p2a : list (ID * list ID)) a :
  build_arg_to_param p2a !! a = fst <$> last (filter (λ pa, a ∈ pa.2) p2a).
Proof.
  unfold build_arg_to_param.
  induction p2a as [|[q args] p2a IH] using rev_ind; [done|].
  rewrite foldl_app, filter_app. simpl. rewrite fill_args_lookup.
  destruct (decide (a ∈ args)) as [Ha|Ha].
  - rewrite filter_cons_True by done. by rewrite filter_nil, last_snoc.
  - rewrite filter_cons_False by done. by rewrite filter_nil, app_nil_r.
Qed.

(** X4.  Whatever the sets of arguments, the [arg_to_param] the
    constructor builds from a non-empty [param_to_arg] maps an argument
    to the last parameter, in the order of the dict, whose arguments hold
    it, and has no entry for an identifier held by none. *)
Theorem arg_to_param_last_parameter_wins kw md
    (p2a : list (ID * list ID)) :
  TrackingMetadata_init kw = Ok md →
  kw_param_to_arg kw = Some p2a →
  p2a ≠ [] →
  ∃ m, arg_to_param md = Some m
       ∧ ∀ a, m !! a = fst <$> last (filter (λ pa, a ∈ pa.2) p2a).
Proof.
  intros Hinit Hkw Hne.
  apply TrackingMetadata_init_Ok in Hinit as (_ & -> & _). rewrite Hkw.
  replace (truthy_dict (Some p2a)) with true by (by destruct p2a).
  eexists. split; [done|]. apply build_arg_to_param_last.
Qed.

(** *** Names and the counter *)

(** X5.  In every world a program over the flow API reaches, the node
    constructed as the [i]-th (counting from 0) is named [str(i)] and the
    shared counter equals the number of nodes: a construction that
    raises draws no number. *)
Theorem node_names_are_construction_indices ops i n :
  heap (run ops initial_world) !! i = Some n →
  name n = pretty i
  ∧ _name_gen (run ops initial_world) = length (heap (run ops initial_world))
  ∧ ∀ fa kw e,
      TrackingMetadata_init kw = Raise e →
      run (ops ++ [NewNode fa kw]) initial_world = run ops initial_world.
Proof.
  intros Hn. destruct (run_invariant ops) as [Hc Hinv].
  destruct (Hinv i n Hn) as [Hname _]. split_and!; [done..|].
  intros fa kw e He. rewrite run_snoc. simpl. unfold Node_init.
  by rewrite He.
Qed.

(** *** The diff, beyond the claims *)

Lemma islice_start k self other w s o :
  heap w !! self = Some s → heap w !! other = Some o →
  frame_id s = frame_id o →
  islice (S k) (get_and_update_var_changes self other) w
  = islice (S k)
      (mkGen self other (Some (elements (tracking (metadata o))))) w.
Proof.
  intros Hs Ho Hf. simpl. unfold gen_next. simpl.
  by rewrite Hs, Ho, decide_True.
Qed.

(** X6.  In every world a program over the flow API reaches, the diff
    between two nodes of one frame never raises ([other.data[var_id]]
    finds its key): consumed whole, it yields the changes between the two
    snapshots over the later node's tracking set and stores them on
    [self]. *)
Theorem diff_completes_in_reachable_world ops self other s o :
  heap (run ops initial_world) !! self = Some s →
  heap (run ops initial_world) !! other = Some o →
  frame_id s = frame_id o →
  list_var_changes self other (run ops initial_world)
  = (events_between (data (metadata s)) (data (metadata o))
       (elements (tracking (metadata o))),
     Exhausted,
     upd self
       (on_metadata
          (record_all
             (events_between (data (metadata s)) (data (metadata o))
                (elements (tracking (metadata o))))))
       (run ops initial_world)).
Proof.
  intros Hs Ho Hf. destruct (run_invariant ops) as [_ Hinv].
  destruct (Hinv other o Ho) as [_ Hok].
  by apply list_var_changes_spec.
Qed.

(** X7.  Between nodes of different frames the first request to the
    generator fails the [assert]: [AssertionError] is raised, nothing is
    yielded and nothing is stored. *)
Theorem diff_of_different_frames_fails_assertion k self other w s o :
  heap w !! self = Some s → heap w !! other = Some o →
  frame_id s ≠ frame_id o →
  islice (S k) (get_and_update_var_changes self other) w
  = ([], Failed AssertionError, w).
Proof.
  intros Hs Ho Hf. simpl. unfold gen_next. simpl.
  by rewrite Hs, Ho, decide_False.
Qed.

(** X8.  A caller that takes only [k] elements of the diff (as [any]
    does with [k = 1]) gets the first [k] of the changes a full run
    yields, and exactly those are stored on [self]; the later changes
    are neither yielded nor stored. *)
Theorem partial_diff_records_a_prefix k self other w s o :
  heap w !! self = Some s → heap w !! other = Some o →
  frame_id s = frame_id o →
  tracking (metadata o) ⊆ dom (data (metadata o)) →
  ∃ st,
    islice k (get_and_update_var_changes self other) w
    = (firstn k (events_between (data (metadata s)) (data (metadata o))
                   (elements (tracking (metadata o)))),
       st,
       upd self
         (on_metadata
            (record_all
               (firstn k
                  (events_between (data (metadata s)) (data (metadata o))
                     (elements (tracking (metadata o)))))))
         w)
    ∧ (length (events_between (data (metadata s)) (data (metadata o))
                 (elements (tracking (metadata o)))) < k →
       st = Exhausted).
Proof.
  intros Hs Ho Hf Hsub. destruct k as [|k].
  - eexists. simpl. rewrite upd_id. split; [done|lia].
  - rewrite (islice_start k self other w s o) by done.
    apply islice_events; [done..|].
    apply Forall_forall. intros i Hi. apply elem_of_dom, Hsub.
    by apply elem_of_elements.
Qed.

(** X9.  However far it is consumed and whatever the world, a diff
    yields at most one change for an identifier. *)
Theorem diff_yields_one_change_per_identifier k self other w cs st w' :
  islice k (get_and_update_var_changes self other) w = (cs, st, w') →
  NoDup (change_id <$> cs).
Proof.
  intros (_ & _ & Hsub)%islice_world.
  eapply sublist_NoDup; [|done].
  unfold todo_of. simpl. destruct (heap w !! other) as [o|].
  - apply NoDup_elements.
  - constructor.
Qed.

Lemma record_all_app cs1 cs2 md :
  record_all cs2 (record_all cs1 md) = record_all (cs1 ++ cs2) md.
Proof. unfold record_all. by rewrite foldl_app. Qed.

Lemma upd_ext a f h w : (∀ n, f n = h n) → upd a f w = upd a h w.
Proof. intros Hfh. unfold upd. f_equal. by apply list_alter_ext. Qed.

(** X10.  The diff is not idempotent: run a second time on the same two
    nodes it yields the same changes again and stores them again, so
    that [self] then holds every change twice. *)
Theorem diff_run_twice_records_twice self other w s o :
  heap w !! self = Some s → heap w !! other = Some o →
  frame_id s = frame_id o →
  tracking (metadata o) ⊆ dom (data (metadata o)) →
  ∃ cs w1 s2,
    list_var_changes self other w = (cs, Exhausted, w1)
    ∧ list_var_changes self other w1
      = (cs, Exhausted, upd self (on_metadata (record_all (cs ++ cs))) w)
    ∧ heap (list_var_changes self other w1).2 !! self = Some s2
    ∧ var_appearances (metadata s2)
      = var_appearances (metadata s) ++ appearances_of cs ++ appearances_of cs
    ∧ var_modifications (metadata s2)
      = var_modifications (metadata s)
        ++ modifications_of cs ++ modifications_of cs.
Proof.
  intros Hs Ho Hf Hsub.
  pose proof (list_var_changes_spec self other w s o Hs Ho Hf Hsub) as H1.
  cbv zeta in H1.
  set (cs := events_between (data (metadata s)) (data (metadata o))
               (elements (tracking (metadata o)))) in *.
  set (w1 := upd self (on_metadata (record_all cs)) w) in *.
  set (s1 := on_metadata (record_all cs) s).
  assert (heap w1 !! self = Some s1) as Hs1.
  { unfold w1. by rewrite upd_lookup, Hs. }
  assert (data (metadata s1) = data (metadata s)) as Ds.
  { unfold s1. simpl. by destruct (record_all_fields cs (metadata s))
      as (_ & _ & _ & _ & -> & _). }
  assert (∃ o1, heap w1 !! other = Some o1
                ∧ data (metadata o1) = data (metadata o)
                ∧ tracking (metadata o1) = tracking (metadata o)
                ∧ frame_id o1 = frame_id o) as (o1 & Ho1 & Do & To & Fo).
  { destruct (decide (self = other)) as [->|Hne].
    - exists s1. assert (o = s) as Hos by congruence.
      split; [done|]. rewrite Ds, Hos. split; [done|].
      split; [|done]. unfold s1. simpl.
      by destruct (record_all_fields cs (metadata s))
        as (_ & _ & _ & -> & _).
    - exists o. unfold w1. by rewrite upd_lookup_ne. }
  assert (list_var_changes self other w1
          = (cs, Exhausted, upd self (on_metadata (record_all cs)) w1)) as H2.
  { pose proof (list_var_changes_spec self other w1 s1 o1 Hs1 Ho1) as H2.
    cbv zeta in H2. rewrite Ds, Do, To in H2. apply H2.
    - unfold s1. simpl. by rewrite Fo.
    - done. }
  assert (upd self (on_metadata (record_all cs)) w1
          = upd self (on_metadata (record_all (cs ++ cs))) w) as Hw.
  { unfold w1. rewrite upd_upd. apply upd_ext. intros n. simpl.
    unfold on_metadata. simpl. by rewrite record_all_app. }
  rewrite Hw in H2.
  exists cs, w1, (on_metadata (record_all (cs ++ cs)) s).
  split; [done|]. split; [done|]. rewrite H2.
  split; [cbn [snd]; by rewrite upd_lookup, Hs|]. simpl.
  destruct (record_all_fields (cs ++ cs) (metadata s)) as (-> & -> & _).
  unfold appearances_of, modifications_of. by rewrite !omap_app.
Qed.

(** X11.  Whatever is taken from a diff, it writes nothing but the two
    sequences of [self]: no node is constructed, the counter is not
    asked, and every node keeps its frame, name, relations, snapshots,
    tracking set, source and parameter maps. *)
Theorem diff_changes_only_event_lists k self other w cs st w' (a : addr) n :
  islice k (get_and_update_var_changes self other) w = (cs, st, w') →
  heap w !! a = Some n →
  _name_gen w' = _name_gen w
  ∧ length (heap w') = length (heap w)
  ∧ ∃ n',
      heap w' !! a = Some n'
      ∧ frame_id n' = frame_id n ∧ name n' = name n
      ∧ prev n' = prev n ∧ next n' = next n
      ∧ step_into n' = step_into n ∧ returned_from n' = returned_from n
      ∧ data (metadata n') = data (metadata n)
      ∧ data_before_return (metadata n') = data_before_return (metadata n)
      ∧ tracking (metadata n') = tracking (metadata n)
      ∧ param_to_arg (metadata n') = param_to_arg (metadata n)
      ∧ arg_to_param (metadata n') = arg_to_param (metadata n)
      ∧ code_str (metadata n') = code_str (metadata n)
      ∧ code_ast (metadata n') = code_ast (metadata n)
      ∧ var_switches (metadata n') = var_switches (metadata n).
Proof.
  intros (-> & Hns & _)%islice_world Hn.
  unfold get_and_update_var_changes; cbn [g_self].
  split; [done|]. split; [apply upd_length|].
  destruct (decide (self = a)) as [->|Hne].
  - exists (on_metadata (record_all cs) n).
    split; [by rewrite upd_lookup, Hn|]. simpl.
    destruct (record_all_fields cs (metadata n))
      as (_ & _ & -> & -> & -> & -> & -> & -> & -> & ->).
    rewrite (no_switch_switches_of _ Hns), app_nil_r. by split_and!.
  - exists n. rewrite upd_lookup_ne by done. by split_and!.
Qed.

(** *** The comparison before return, beyond the claims *)

Lemma before_return_loop_key_error todo n b :
  data_before_return (metadata n) = Some b →
  ¬ Forall (λ var_id, is_Some (b !! var_id)) todo →
  (before_return_loop n todo).1 = Raise KeyError.
Proof.
  revert n. induction todo as [|var_id todo IH]; intros n Hb Hnot.
  - by destruct Hnot.
  - simpl. rewrite Hb.
    destruct (b !! var_id) as [new|] eqn:Hnew; [|done].
    assert (¬ Forall (λ var_id, is_Some (b !! var_id)) todo) as Hnot'.
    { intros Hall. apply Hnot. by constructor. }
    destruct (data (metadata n) !! var_id) as [old|];
      [destruct (has_diff new old)|]; by apply IH.
Qed.

(** X12.  With [data_before_return] set, the comparison returns
    normally exactly when [data_before_return] holds every tracked
    identifier, and raises [KeyError] exactly when it lacks one. *)
Theorem before_return_key_error_iff_missing n b :
  data_before_return (metadata n) = Some b →
  ((update_var_changes_before_return n).1 = Ok ()
   ↔ tracking (metadata n) ⊆ dom b)
  ∧ ((update_var_changes_before_return n).1 = Raise KeyError
     ↔ ¬ tracking (metadata n) ⊆ dom b).
Proof.
  intros Hb. unfold update_var_changes_before_return.
  assert (Forall (λ var_id, is_Some (b !! var_id))
            (elements (tracking (metadata n)))
          ↔ tracking (metadata n) ⊆ dom b) as Hiff.
  { rewrite Forall_forall. split.
    - intros Hall i Hi. apply elem_of_dom, Hall. by apply elem_of_elements.
    - intros Hsub i Hi. apply elem_of_dom, Hsub. by apply elem_of_elements. }
  destruct (decide (Forall (λ var_id, is_Some (b !! var_id))
                      (elements (tracking (metadata n))))) as [Hall|Hnot].
  - rewrite (before_return_loop_ok _ n b Hb Hall). simpl.
    split; [tauto|]. split; [done|]. intros Hn. destruct Hn. by apply Hiff.
  - rewrite (before_return_loop_key_error _ n b Hb Hnot).
    split; [|tauto]. split; [done|]. intros Hsub. destruct Hnot.
    by apply Hiff.
Qed.

(** X13.  With [data_before_return] unset, the comparison returns
    normally exactly when nothing is tracked; in either case the node is
    left as it was. *)
Theorem before_return_unset_ok_iff_nothing_tracked n :
  data_before_return (metadata n) = None →
  ((update_var_changes_before_return n).1 = Ok ()
   ↔ tracking (metadata n) = ∅)
  ∧ (update_var_changes_before_return n).2 = n.
Proof.
  intros Hnone. unfold update_var_changes_before_return.
  destruct (elements (tracking (metadata n))) as [|var_id todo] eqn:He.
  - simpl. split; [|done]. split; [|done]. intros _.
    apply elements_empty_iff in He. by apply leibniz_equiv in He.
  - simpl. rewrite Hnone. simpl. split; [|done]. split; [done|].
    intros Hempty. rewrite Hempty, elements_empty in He. done.
Qed.

Lemma before_return_loop_no_appearance todo n :
  Forall (λ var_id, is_Some (data (metadata n) !! var_id)) todo →
  var_appearances (metadata (before_return_loop n todo).2)
  = var_appearances (metadata n).
Proof.
  revert n. induction todo as [|var_id todo IH]; intros n Hall; [done|].
  apply Forall_cons in Hall as [[old Hold] Hall]. simpl. rewrite Hold.
  destruct (data_before_return (metadata n)) as [b|]; [|done].
  destruct (b !! var_id) as [new|]; [|done].
  destruct (has_diff new old); by rewrite IH.
Qed.

(** X14.  In every world a program over the flow API reaches, the
    comparison before return never records an appearance: whether it
    returns or raises, [var_appearances] is as before. *)
Theorem before_return_records_no_appearance ops i n :
  heap (run ops initial_world) !! i = Some n →
  var_appearances (metadata (update_var_changes_before_return n).2)
  = var_appearances (metadata n).
Proof.
  intros Hn. destruct (run_invariant ops) as [_ Hinv].
  destruct (Hinv i n Hn) as [_ Hok].
  apply before_return_loop_no_appearance, Forall_forall.
  intros var_id Hi. apply elem_of_dom, Hok. by apply elem_of_elements.
Qed.

(** *** Tracking, beyond the claims *)

Lemma set_tracking_set_tracking md t t' :
  set_tracking (set_tracking md t) t' = set_tracking md t'.
Proof. done. Qed.

Lemma add_tracking_cons md new_id new_ids :
  add_tracking md (new_id :: new_ids)
  = add_tracking
      (if decide (is_Some (data md !! new_id))
       then set_tracking md ({[new_id]} ∪ tracking md) else md)
      new_ids.
Proof. done. Qed.

(** [add_tracking] replaces the tracking set and nothing else. *)
Lemma add_tracking_as_set md new_ids :
  add_tracking md new_ids
  = set_tracking md (tracking (add_tracking md new_ids)).
Proof.
  revert md. induction new_ids as [|new_id new_ids IH]; intros md.
  - by destruct md.
  - rewrite add_tracking_cons. case_decide; [|apply IH].
    rewrite IH at 1. apply set_tracking_set_tracking.
Qed.

Lemma add_tracking_same_elements md (l1 l2 : list ID) :
  (∀ var_id, var_id ∈ l1 ↔ var_id ∈ l2) →
  add_tracking md l1 = add_tracking md l2.
Proof.
  intros Hl. rewrite (add_tracking_as_set md l1), (add_tracking_as_set md l2).
  f_equal. apply set_eq. intros var_id.
  destruct (add_tracking_spec md l1) as [_ ->].
  destruct (add_tracking_spec md l2) as [_ ->]. by rewrite Hl.
Qed.

Lemma add_tracking_absorbs md (l1 l2 : list ID) :
  (∀ var_id, var_id ∈ l2 → var_id ∈ l1) →
  add_tracking (add_tracking md l1) l2 = add_tracking md l1.
Proof.
  intros Hl. rewrite (add_tracking_as_set (add_tracking md l1) l2).
  rewrite (add_tracking_as_set md l1) at 1 3.
  rewrite set_tracking_set_tracking. f_equal. apply set_eq. intros var_id.
  destruct (add_tracking_spec (add_tracking md l1) l2) as [_ ->].
  destruct (add_tracking_spec md l1) as [-> ->].
  specialize (Hl var_id). tauto.
Qed.

(** X15.  [sync_tracking_with] makes the receiver track, besides what it
    tracked, those identifiers the other node tracks that the
    receiver's own snapshot holds; the snapshot is untouched, and
    synchronising a second time with the same node changes nothing. *)
Theorem sync_tracking_with_takes_known_identifiers md other :
  (∀ var_id,
      var_id ∈ tracking (sync_tracking_with md other)
      ↔ var_id ∈ tracking md
        ∨ (var_id ∈ tracking (metadata other) ∧ var_id ∈ dom (data md)))
  ∧ data (sync_tracking_with md other) = data md
  ∧ sync_tracking_with (sync_tracking_with md other) other
    = sync_tracking_with md other.
Proof.
  unfold sync_tracking_with.
  destruct (add_tracking_spec md (elements (tracking (metadata other))))
    as [Hd Ht].
  split_and!; [|done|by apply add_tracking_absorbs].
  intros var_id. by rewrite Ht, elem_of_elements, elem_of_dom.
Qed.

(** X16.  The result of [add_tracking] depends only on which
    identifiers are given, not on their order or repetition, and giving
    identifiers again that were given before changes nothing. *)
Theorem add_tracking_ignores_order_and_repetition md (l1 l2 : list ID) :
  (∀ var_id, var_id ∈ l1 ↔ var_id ∈ l2) →
  add_tracking md l1 = add_tracking md l2
  ∧ add_tracking (add_tracking md l1) l2 = add_tracking md l1.
Proof.
  intros Hl. split; [by apply add_tracking_same_elements|].
  apply add_tracking_absorbs. intros var_id. by rewrite Hl.
Qed.

(** *** The construction of a flow, beyond the claims *)

Lemma upd_fixed a f w :
  (∀ n, heap w !! a = Some n → f n = n) → upd a f w = w.
Proof.
  intros Hf. destruct w as [hp c]. unfold upd. simpl in *. f_equal.
  rewrite <- (list_alter_id (λ n, n) hp a) at 2 by done.
  by apply list_alter_ext.
Qed.

Lemma Flow_init_unfold start target w t :
  heap w !! target = Some t →
  Flow_init start target w
  = match target_id t with
    | Ok i =>
        (Ok (mkFlow start target),
         upd target (on_metadata (λ md, add_tracking md [i]))
             (upd start (λ n, setattr n "prev" ROOT) w))
    | Raise e => (Raise e, upd start (λ n, setattr n "prev" ROOT) w)
    end.
Proof.
  intros Ht. unfold Flow_init, _update_target_id.
  assert (∃ t1, heap (upd start (λ n, setattr n "prev" ROOT) w) !! target
                = Some t1 ∧ target_id t1 = target_id t) as (t1 & -> & ->).
  { destruct (decide (start = target)) as [->|Hne].
    - eexists. rewrite upd_lookup, Ht. split; [done|].
      apply target_id_setattr.
    - exists t. by rewrite upd_lookup_ne. }
  by destruct (target_id t).
Qed.

(** X17.  When the identifier named by the target's source is not in the
    target's snapshot, the construction of the flow still succeeds: it
    sets [start.prev] and tracks nothing. *)
Theorem flow_init_unknown_identifier_tracks_nothing start target w t i :
  heap w !! target = Some t →
  target_id t = Ok i →
  data (metadata t) !! i = None →
  Flow_init start target w
  = (Ok (mkFlow start target), upd start (λ n, setattr n "prev" ROOT) w).
Proof.
  intros Ht Hi Hd. rewrite (Flow_init_unfold start target w t Ht), Hi.
  f_equal. apply upd_fixed. intros n Hn.
  assert (data (metadata n) = data (metadata t)) as Hdn.
  { destruct (decide (start = target)) as [->|Hne].
    - rewrite upd_lookup, Ht in Hn. injection Hn as <-.
      by destruct (setattr_fields t "prev" ROOT) as (-> & _).
    - rewrite upd_lookup_ne, Ht in Hn by done. by simplify_eq. }
  destruct n as [? ? ? ? ? md ?]. unfold on_metadata. simpl in *. f_equal.
  unfold add_tracking. simpl. rewrite Hdn, Hd.
  by rewrite decide_False by (by intros [? ?]).
Qed.

Lemma on_metadata_ext f h n :
  f (metadata n) = h (metadata n) → on_metadata f n = on_metadata h n.
Proof. intros Hfh. unfold on_metadata. by rewrite Hfh. Qed.

Lemma setattr_prev_fixed n r : prev n = r → setattr n "prev" r = n.
Proof. intros <-. by destruct n. Qed.

Lemma target_id_on_metadata_add_tracking t new_ids :
  target_id (on_metadata (λ md, add_tracking md new_ids) t) = target_id t.
Proof.
  unfold target_id. simpl. rewrite (add_tracking_as_set (metadata t)). done.
Qed.

(** X18.  Constructing the flow a second time from the same two nodes
    succeeds again and leaves the world as the first construction left
    it. *)
Theorem flow_init_twice_changes_nothing start target w fl w1 :
  Flow_init start target w = (Ok fl, w1) →
  Flow_init start target w1 = (Ok fl, w1).
Proof.
  intros Hfl.
  destruct (heap w !! target) as [t|] eqn:Ht.
  2:{ assert (heap (upd start (λ n, setattr n "prev" ROOT) w) !! target
              = None) as Hnone.
      { destruct (decide (start = target)) as [->|Hne];
          [by rewrite upd_lookup, Ht|by rewrite upd_lookup_ne]. }
      unfold Flow_init, _update_target_id in Hfl. by rewrite Hnone in Hfl. }
  rewrite (Flow_init_unfold start target w t Ht) in Hfl.
  destruct (target_id t) as [i|e] eqn:Hi; [|done].
  injection Hfl as <- <-.
  set (w0 := upd start (λ n, setattr n "prev" ROOT) w).
  set (w1 := upd target (on_metadata (λ md, add_tracking md [i])) w0).
  change (Flow_init start target w1 = (Ok (mkFlow start target), w1)).
  assert (∃ t0, heap w0 !! target = Some t0 ∧ target_id t0 = Ok i)
    as (t0 & Ht0 & Hi0).
  { destruct (decide (start = target)) as [->|Hne].
    - eexists. unfold w0. rewrite upd_lookup, Ht. split; [done|].
      by rewrite target_id_setattr.
    - exists t. unfold w0. by rewrite upd_lookup_ne. }
  assert (heap w1 !! target
          = Some (on_metadata (λ md, add_tracking md [i]) t0)) as Ht1.
  { unfold w1. by rewrite upd_lookup, Ht0. }
  rewrite (Flow_init_unfold start target w1 _ Ht1).
  rewrite target_id_on_metadata_add_tracking, Hi0. f_equal.
  assert (upd start (λ n, setattr n "prev" ROOT) w1 = w1) as ->.
  { apply upd_fixed. intros n Hn. apply setattr_prev_fixed.
    assert (∃ n0, heap w0 !! start = Some n0 ∧ prev n = prev n0)
      as (n0 & Hn0 & ->).
    { destruct (decide (target = start)) as [Heq|Hne].
      - exists t0. rewrite <- Heq. split; [done|].
        rewrite <- Heq, Ht1 in Hn. by injection Hn as <-.
      - exists n. split; [|done]. unfold w1 in Hn.
        by rewrite upd_lookup_ne in Hn. }
    unfold w0 in Hn0. rewrite upd_lookup in Hn0.
    destruct (heap w !! start) as [n1|]; [|done].
    injection Hn0 as <-.
    by destruct (setattr_relations n1 "prev" ROOT) as (-> & _);
      [by left|]. }
  apply upd_fixed. intros n Hn.
  assert (n = on_metadata (λ md, add_tracking md [i]) t0) as ->
    by congruence.
  rewrite on_metadata_compose. apply on_metadata_ext.
  by apply (add_tracking_absorbs _ [i] [i]).
Qed.

End MoreFlowProperties.

(** ** Properties of [format.py] *)

Section FormatProperties.

Implicit Types (st : ViewState) (v : NodeView) (r node : Ref).

Lemma initial_views_ok : portnames_ok initial_views.
Proof.
  unfold portnames_ok, initial_views. simpl. split_and!.
  - apply map_size_empty.
  - intros r pn. by rewrite lookup_empty.
  - intros k. lia.
  - intros r1 r2 pn. by rewrite lookup_empty.
Qed.

Lemma generate_portname_spec node st :
  _portname_cache st ⊆ _portname_cache (_generate_portname node st).2
  ∧ _portname_cache (_generate_portname node st).2 !! node
    = Some (_generate_portname node st).1
  ∧ dom (_portname_cache (_generate_portname node st).2)
    = {[node]} ∪ dom (_portname_cache st)
  ∧ (portnames_ok st → portnames_ok (_generate_portname node st).2).
Proof.
  unfold _generate_portname.
  destruct (_portname_cache st !! node) as [pn|] eqn:Hc; simpl.
  - split_and!; [done..| |done].
    apply set_eq. intros r. rewrite elem_of_union, elem_of_singleton.
    split; [by right|]. intros [->|?]; [|done]. by apply elem_of_dom.
  - split_and!.
    + by apply insert_subseteq.
    + apply lookup_insert_eq.
    + apply dom_insert_L.
    + intros (Hsz & Hval & Hdense & Hinj). unfold portnames_ok. simpl.
      split_and!.
      * by rewrite map_size_insert_None, Hsz.
      * intros r pn. destruct (decide (r = node)) as [->|Hne].
        -- rewrite lookup_insert_eq. intros [= <-]. exists (_incrementor st).
           split; [lia|done].
        -- rewrite lookup_insert_ne by done.
           intros (k & Hk & ->)%Hval. exists k. split; [lia|done].
      * intros k Hk. destruct (decide (k = _incrementor st)) as [->|Hne].
        -- exists node. apply lookup_insert_eq.
        -- destruct (Hdense k) as [r Hr]; [lia|]. exists r.
           rewrite lookup_insert_ne; [done|]. intros <-. congruence.
      * intros r1 r2 pn.
        destruct (decide (r1 = node)) as [->|Hne1],
                 (decide (r2 = node)) as [->|Hne2];
          rewrite ?lookup_insert_eq, ?lookup_insert_ne by done; [done| | |].
        -- intros [= <-] (k & Hk & Heq)%Hval.
           apply (inj pretty) in Heq. lia.
        -- intros (k & Hk & Heq)%Hval [= <-].
           apply (inj pretty) in Heq. lia.
        -- apply Hinj.
Qed.

Lemma NodeView_all_spec nodes st vs st' :
  NodeView_all nodes st = (vs, st') →
  _portname_cache st ⊆ _portname_cache st'
  ∧ dom (_portname_cache st')
    = list_to_set nodes ∪ dom (_portname_cache st)
  ∧ Forall2 (λ node v, _node v = node
                       ∧ _portname_cache st' !! node = Some (_portname v))
            nodes vs
  ∧ (portnames_ok st → portnames_ok st').
Proof.
  revert st vs st'. induction nodes as [|node nodes IH]; intros st vs st'.
  - simpl. intros [= <- <-]. split_and!; [done| |constructor|done].
    by rewrite (left_id_L ∅ (∪)).
  - simpl. unfold NodeView_init.
    destruct (generate_portname_spec node st) as (Hsub & Hnode & Hdom & Hok).
    destruct (_generate_portname node st) as [pn st1]. simpl in *.
    destruct (NodeView_all nodes st1) as [vs' st2] eqn:Hall.
    intros [= <- <-].
    destruct (IH st1 vs' st2 Hall) as (Hsub' & Hdom' & HF & Hok').
    split_and!.
    + by etrans.
    + rewrite Hdom', Hdom. simpl.
      by rewrite (assoc_L (∪)), (comm_L (∪) (list_to_set nodes)).
    + constructor; [|done]. simpl. split; [done|].
      by eapply lookup_weaken.
    + auto.
Qed.

(** X19.  Among views constructed one after the other, two views carry
    the same port name exactly when they wrap the same object; the
    [i]-th view wraps the [i]-th object given. *)
Theorem portname_identifies_object nodes vs st' i j vi vj :
  NodeView_all nodes initial_views = (vs, st') →
  vs !! i = Some vi → vs !! j = Some vj →
  (_portname vi = _portname vj ↔ _node vi = _node vj)
  ∧ nodes !! i = Some (_node vi).
Proof.
  intros (_ & _ & HF & Hok)%NodeView_all_spec Hi Hj.
  destruct (Hok initial_views_ok) as (_ & _ & _ & Hinj).
  destruct (Forall2_lookup_r _ _ _ _ _ HF Hi) as (ri & Hri & <- & Hci).
  destruct (Forall2_lookup_r _ _ _ _ _ HF Hj) as (rj & Hrj & <- & Hcj).
  split; [|done]. split.
  - intros Heq. rewrite Heq in Hci. by eapply Hinj.
  - intros Heq. rewrite Heq in Hci. congruence.
Qed.

(** X20.  After views of a list of objects have been constructed, the
    counter equals the number of distinct objects among them, and the
    port names in use are exactly [str(0)], ..., [str(m - 1)] for that
    number [m]: the numbering starts at 0 and has no gap. *)
Theorem portnames_number_the_distinct_objects nodes vs st' :
  NodeView_all nodes initial_views = (vs, st') →
  _incrementor st' = size (list_to_set nodes : gset Ref)
  ∧ ∀ pn, (∃ v, v ∈ vs ∧ _portname v = pn)
          ↔ ∃ k, k < _incrementor st' ∧ pn = pretty k.
Proof.
  intros (_ & Hdom & HF & Hok)%NodeView_all_spec.
  destruct (Hok initial_views_ok) as (Hsz & Hval & Hdense & Hinj).
  simpl in Hdom. rewrite dom_empty_L, (right_id_L ∅ (∪)) in Hdom. split.
  - by rewrite <- Hsz, <- size_dom, Hdom.
  - intros pn. split.
    + intros (v & Hv & <-).
      apply list_elem_of_lookup in Hv as [i Hi].
      destruct (Forall2_lookup_r _ _ _ _ _ HF Hi) as (r & _ & _ & Hc).
      by eapply Hval.
    + intros (k & Hk & ->). destruct (Hdense k Hk) as [r Hr].
      assert (r ∈ nodes) as Hin.
      { apply (elem_of_list_to_set (C := gset Ref)). rewrite <- Hdom.
        by apply elem_of_dom. }
      apply list_elem_of_lookup in Hin as [i Hi].
      destruct (Forall2_lookup_l _ _ _ _ _ HF Hi) as (v & Hv & _ & Hc).
      exists v. split; [by eapply list_elem_of_lookup_2|]. congruence.
Qed.

End FormatProperties.

Section ViewProperties.
Context `{Ext : External}.

(** X21.  Reading a relation through a view a second time gives the
    same answer, the same view with the same port name included, and
    changes the cache no more; no name given before is lost or
    changed. *)
Theorem view_relation_is_stable (rel : Node → Ref) v w st res st1 :
  view_relation rel v w st = (res, st1) →
  view_relation rel v w st1 = (res, st1)
  ∧ _portname_cache st ⊆ _portname_cache st1.
Proof.
  unfold view_relation.
  destruct (_node v) as [| |a]; try (intros [= <- <-]; by split).
  destruct (heap w !! a) as [n|]; [|intros [= <- <-]; by split].
  assert (∀ r,
    (let '(v', st') := NodeView_init r st in (Ok (Some v'), st'))
    = (res, st1) →
    (let '(v', st') := NodeView_init r st1 in (Ok (Some v'), st'))
    = (res, st1)
    ∧ _portname_cache st ⊆ _portname_cache st1) as Hview.
  { intros r. unfold NodeView_init.
    destruct (generate_portname_spec r st) as (Hsub & Hr & _).
    destruct (_generate_portname r st) as [pn st'] eqn:Hg. simpl in *.
    intros [= <- <-]. split; [|done].
    unfold _generate_portname. by rewrite Hr. }
  destruct (rel n); [intros [= <- <-]; by split|apply Hview..].
Qed.

End ViewProperties.

(** ** The claims on concrete inputs *)

Section Examples.
#[local] Existing Instance sample.

Local Ltac by_compute := vm_compute; reflexivity.
Local Ltac by_decide := apply (bool_decide_unpack _); vm_compute; exact I.

Lemma world_call_nodes :
  heap world_call !! 0 = Some node_entry
  ∧ heap world_call !! 1 = Some node_after_entry.
Proof. split; by_compute. Qed.

Lemma world_appear_nodes :
  heap world_appear !! 0 = Some node_earlier
  ∧ heap world_appear !! 1 = Some node_later.
Proof. split; by_compute. Qed.

(** C1, on the call scenario. *)
Lemma diff_absent_identifier_is_appearance_witness :
  heap world_call !! 0 = Some node_entry
  ∧ heap world_call !! 1 = Some node_after_entry
  ∧ frame_id node_entry = frame_id node_after_entry
  ∧ tracking (metadata node_after_entry)
    ⊆ dom (data (metadata node_after_entry))
  ∧ ∃ cs w',
      list_var_changes 0 1 world_call = (cs, Exhausted, w')
      ∧ switches_of cs = []
      ∧ ∀ var_id new,
          var_id ∈ tracking (metadata node_after_entry) →
          data (metadata node_entry) !! var_id = None →
          data (metadata node_after_entry) !! var_id = Some new →
          Appearance (mkVarAppearance var_id new) ∈ cs
          ∧ ∀ param, Switch (mkVarSwitch var_id param new) ∉ cs.
Proof.
  split; [by_compute|]. split; [by_compute|].
  split; [reflexivity|]. split; [by_decide|].
  apply diff_absent_identifier_is_appearance;
    [by_compute|by_compute|reflexivity|by_decide].
Defined.

(** C1 as stated fails: [y] is an argument that [get_args()] of the
    call-entry node returns and is absent from that node's snapshot, yet
    the diff against the next node emits [Appearance(y, 5)] and no
    [Switch(y, p, 5)]. *)
Lemma argument_gets_appearance_not_switch :
  heap world_call !! 0 = Some node_entry
  ∧ heap world_call !! 1 = Some node_after_entry
  ∧ get_args (metadata node_entry) = Ok {[y_id]}
  ∧ data (metadata node_entry) !! y_id = None
  ∧ y_id ∈ tracking (metadata node_after_entry)
  ∧ frame_id node_entry = frame_id node_after_entry
  ∧ (list_var_changes 0 1 world_call).1
    = ([Appearance (mkVarAppearance y_id 5%Z)], Exhausted)
  ∧ (list_var_changes 0 1 world_call).1.1
    ≠ [Switch (mkVarSwitch y_id p_id 5%Z)].
Proof.
  split; [by_compute|]. split; [by_compute|]. split; [by_compute|].
  split; [by_compute|]. split; [by_decide|]. split; [reflexivity|].
  assert ((list_var_changes 0 1 world_call).1
          = ([Appearance (mkVarAppearance y_id 5%Z)], Exhausted)) as Heq
    by by_compute.
  split; [exact Heq|]. rewrite Heq. simpl. discriminate.
Qed.

(** C2, on the appearance scenario, the caller taking two elements. *)
Lemma diff_events_stored_on_self_witness :
  heap world_appear !! 0 = Some node_earlier
  ∧ islice 2 (get_and_update_var_changes 0 1) world_appear
    = ([Appearance (mkVarAppearance x_id 1%Z)], Exhausted,
       (list_var_changes 0 1 world_appear).2)
  ∧ (∃ s',
        heap (list_var_changes 0 1 world_appear).2 !! 0 = Some s'
        ∧ var_appearances (metadata s')
          = var_appearances (metadata node_earlier)
            ++ appearances_of [Appearance (mkVarAppearance x_id 1%Z)]
        ∧ var_modifications (metadata s')
          = var_modifications (metadata node_earlier)
            ++ modifications_of [Appearance (mkVarAppearance x_id 1%Z)]
        ∧ var_switches (metadata s') = var_switches (metadata node_earlier))
  ∧ (∀ b, b ≠ 0 →
          heap (list_var_changes 0 1 world_appear).2 !! b
          = heap world_appear !! b).
Proof.
  split; [by_compute|]. split; [by_compute|].
  apply (diff_events_stored_on_self 2 0 1 world_appear _ Exhausted);
    by_compute.
Defined.

(** C2 as stated fails: the diff of node 0 against the later node 1
    emits [Appearance(x, 1)]; the later node is left as it was, without
    any event, and the earlier node's [var_appearances] receives it. *)
Lemma later_step_left_without_events :
  heap world_appear !! 0 = Some node_earlier
  ∧ heap world_appear !! 1 = Some node_later
  ∧ (list_var_changes 0 1 world_appear).1
    = ([Appearance (mkVarAppearance x_id 1%Z)], Exhausted)
  ∧ heap (list_var_changes 0 1 world_appear).2 !! 1 = Some node_later
  ∧ var_appearances (metadata node_later) = []
  ∧ heap (list_var_changes 0 1 world_appear).2 !! 0
    = Some (on_metadata
              (λ md, add_var_appearances md [mkVarAppearance x_id 1%Z])
              node_earlier)
  ∧ var_appearances (metadata node_earlier) = [].
Proof. split_and!; by_compute. Qed.

(** C3, on the appearance scenario and on the returning node. *)
Lemma recorded_identifiers_are_tracked_witness :
  heap world_appear !! 0 = Some node_earlier
  ∧ heap world_appear !! 1 = Some node_later
  ∧ islice 2 (get_and_update_var_changes 0 1) world_appear
    = ([Appearance (mkVarAppearance x_id 1%Z)], Exhausted,
       (list_var_changes 0 1 world_appear).2)
  ∧ update_var_changes_before_return node_return
    = (Ok (), (update_var_changes_before_return node_return).2)
  ∧ (∃ s',
        heap (list_var_changes 0 1 world_appear).2 !! 0 = Some s'
        ∧ var_appearances (metadata s')
          = var_appearances (metadata node_earlier)
            ++ appearances_of [Appearance (mkVarAppearance x_id 1%Z)]
        ∧ var_modifications (metadata s')
          = var_modifications (metadata node_earlier)
            ++ modifications_of [Appearance (mkVarAppearance x_id 1%Z)]
        ∧ var_switches (metadata s') = var_switches (metadata node_earlier)
        ∧ tracking (metadata s') = tracking (metadata node_earlier)
        ∧ (∀ a, a ∈ appearances_of [Appearance (mkVarAppearance x_id 1%Z)] →
                ap_id a ∈ tracking (metadata node_later))
        ∧ (∀ m, m ∈ modifications_of [Appearance (mkVarAppearance x_id 1%Z)] →
                mod_id m ∈ tracking (metadata node_later)))
  ∧ (∃ la lm,
        var_appearances
          (metadata (update_var_changes_before_return node_return).2)
        = var_appearances (metadata node_return) ++ la
        ∧ var_modifications
            (metadata (update_var_changes_before_return node_return).2)
          = var_modifications (metadata node_return) ++ lm
        ∧ var_switches
            (metadata (update_var_changes_before_return node_return).2)
          = var_switches (metadata node_return)
        ∧ tracking (metadata (update_var_changes_before_return node_return).2)
          = tracking (metadata node_return)
        ∧ (∀ a, a ∈ la → ap_id a ∈ tracking (metadata node_return))
        ∧ (∀ m, m ∈ lm → mod_id m ∈ tracking (metadata node_return))).
Proof.
  split; [by_compute|]. split; [by_compute|].
  split; [by_compute|]. split; [by_compute|].
  apply (recorded_identifiers_are_tracked 2 0 1 world_appear _ Exhausted
           _ node_earlier node_later node_return (Ok ()));
    by_compute.
Defined.

(** C3 as stated fails: after the diff, node 0 holds [Appearance(x, 1)]
    although [x] is not in its own tracking set (it is not even in its
    snapshot). *)
Lemma recorded_identifier_not_tracked_by_owner :
  heap (run [VarChanges 0 1 2] world_appear) !! 0
  = Some (on_metadata
            (λ md, add_var_appearances md [mkVarAppearance x_id 1%Z])
            node_earlier)
  ∧ var_appearances
      (metadata (on_metadata
         (λ md, add_var_appearances md [mkVarAppearance x_id 1%Z])
         node_earlier))
    = [mkVarAppearance x_id 1%Z]
  ∧ (x_id ∉ tracking
       (metadata (on_metadata
          (λ md, add_var_appearances md [mkVarAppearance x_id 1%Z])
          node_earlier))).
Proof.
  split; [by_compute|]. split; [reflexivity|]. by_decide.
Qed.

(** C5: the node of [world_no_return] tracks [x] and has no
    [data_before_return]; the call raises [TypeError]. *)
Lemma before_return_unset_raises_witness :
  heap world_no_return !! 0 = Some node_no_return
  ∧ data_before_return (metadata node_no_return) = None
  ∧ tracking (metadata node_no_return) ≠ ∅
  ∧ update_var_changes_before_return node_no_return
    = (Raise TypeError, node_no_return).
Proof.
  split; [by_compute|]. split; [reflexivity|].
  assert (tracking (metadata node_no_return) ≠ ∅) as Hne by by_decide.
  split; [exact Hne|].
  apply before_return_unset_raises; [reflexivity|exact Hne].
Defined.

(** C7, scenario E: [tracking = {x}], [data = {x: 1}],
    [data_before_return = {x: 2}] gives [Modification(x, 1, 2)]. *)
Lemma before_return_records_modifications_witness :
  heap world_return !! 0 = Some node_return
  ∧ data_before_return (metadata node_return) = Some {[x_id := 2%Z]}
  ∧ tracking (metadata node_return) ⊆ dom ({[x_id := 2%Z]} : gmap ID Z)
  ∧ ∃ n',
      update_var_changes_before_return node_return = (Ok (), n')
      ∧ var_modifications (metadata n') = [mkVarModification x_id 1%Z 2%Z]
      ∧ var_appearances (metadata n') = []
      ∧ var_switches (metadata n') = []
      ∧ tracking (metadata n') = {[x_id]}
      ∧ data (metadata n') = {[x_id := 1%Z]}.
Proof.
  split; [by_compute|]. split; [reflexivity|]. split; [by_decide|].
  destruct (before_return_records_modifications node_return {[x_id := 2%Z]})
    as (n' & Hr & Hm & Ha & Hs & Ht & Hd); [reflexivity|by_decide|].
  exists n'. split; [exact Hr|].
  split; [rewrite Hm; by_compute|].
  split; [rewrite Ha; by_compute|].
  split; [rewrite Hs; reflexivity|].
  split; [rewrite Ht; reflexivity|rewrite Hd; reflexivity].
Defined.

(** C7 as stated fails: the last node tracks [x] and [y],
    [data_before_return] is set and holds [x] only, with 2 where [data]
    has 1.  [self.data_before_return[var_id]] raises [KeyError] at [y],
    in whichever order the two are visited; in the order of the tracking
    set [y] comes first, and the node is left without
    [Modification(x, 1, 2)]. *)
Lemma before_return_missing_identifier_raises :
  heap world_return_missing !! 0 = Some node_return_missing
  ∧ data_before_return (metadata node_return_missing) = Some {[x_id := 2%Z]}
  ∧ x_id ∈ tracking (metadata node_return_missing)
  ∧ data (metadata node_return_missing) !! x_id = Some 1%Z
  ∧ ({[x_id := 2%Z]} : gmap ID Z) !! x_id = Some 2%Z
  ∧ has_diff 2%Z 1%Z = true
  ∧ update_var_changes_before_return node_return_missing
    = (Raise KeyError, node_return_missing)
  ∧ var_modifications (metadata node_return_missing) = []
  ∧ (∀ todo, y_id ∈ todo →
       (before_return_loop node_return_missing todo).1 = Raise KeyError)
  ∧ ¬ ∃ n',
        update_var_changes_before_return node_return_missing = (Ok (), n')
        ∧ mkVarModification x_id 1%Z 2%Z ∈ var_modifications (metadata n').
Proof.
  assert (update_var_changes_before_return node_return_missing
          = (Raise KeyError, node_return_missing)) as Hr by by_compute.
  split; [by_compute|]. split; [reflexivity|]. split; [by_decide|].
  split; [by_compute|]. split; [by_compute|]. split; [reflexivity|].
  split; [exact Hr|]. split; [reflexivity|]. split.
  - intros todo Hy.
    apply (before_return_loop_key_error todo node_return_missing
             {[x_id := 2%Z]}); [reflexivity|].
    intros Hall. rewrite Forall_forall in Hall.
    destruct (Hall y_id Hy) as [v Hv]. vm_compute in Hv. discriminate Hv.
  - intros (n' & Hok & _). rewrite Hr in Hok. discriminate Hok.
Qed.

(** C6, on the later node of the appearance scenario. *)
Lemma tracking_within_data_witness :
  heap (run program_appear initial_world) !! 1 = Some node_later
  ∧ tracking (metadata node_later) ⊆ dom (data (metadata node_later))
  ∧ ∀ new_ids,
      data (add_tracking (metadata node_later) new_ids)
      = data (metadata node_later)
      ∧ tracking (add_tracking (metadata node_later) new_ids)
        ⊆ dom (data (add_tracking (metadata node_later) new_ids))
      ∧ ∀ var_id,
          var_id ∈ tracking (add_tracking (metadata node_later) new_ids)
          ↔ var_id ∈ tracking (metadata node_later)
            ∨ (var_id ∈ new_ids ∧ var_id ∈ dom (data (metadata node_later))).
Proof.
  split; [by_compute|].
  apply (tracking_within_data program_appear 1 node_later). by_compute.
Defined.


(** C10, on the two nodes of the appearance scenario. *)
Lemma node_names_distinct_witness :
  heap (run program_appear initial_world) !! 0 = Some node_earlier
  ∧ heap (run program_appear initial_world) !! 1 = Some node_later
  ∧ name node_earlier = "0" ∧ name node_later = "1"
  ∧ name node_earlier ≠ name node_later
  ∧ ∃ ki kj,
      name node_earlier = pretty ki ∧ name node_later = pretty kj
      ∧ ki < _name_gen (run program_appear initial_world)
      ∧ kj < _name_gen (run program_appear initial_world)
      ∧ (0 < 1 ↔ ki < kj).
Proof.
  split; [by_compute|]. split; [by_compute|].
  split; [reflexivity|]. split; [reflexivity|].
  apply (node_names_distinct program_appear 0 1); [by_compute..|lia].
Defined.

(** C8 as stated fails: a source text is supplied, the empty string, and
    the constructor raises all the same. *)
Lemma empty_code_str_is_rejected :
  kw_code_str kw_empty_source = Some ""
  ∧ TrackingMetadata_init kw_empty_source
    = Raise (ValueError "Should provide code_str or code_ast.")
  ∧ ¬ (TrackingMetadata_init kw_empty_source
         = Raise (ValueError "Should provide code_str or code_ast.")
       ↔ kw_code_str kw_empty_source = None
         ∧ kw_code_ast kw_empty_source = None).
Proof.
  split; [reflexivity|]. split; [reflexivity|].
  intros [Hfail _]. by destruct Hfail.
Qed.

(** C8, the converter's side: a text the parser rejects makes the
    constructor raise the parser's exception, and a text it accepts is
    kept beside its tree. *)
Lemma metadata_init_follows_parser :
  parse_code_str "x =" = Raise SyntaxError
  ∧ TrackingMetadata_init (kw_of "x =" ∅) = Raise SyntaxError
  ∧ parse_code_str "x = 1" = Ok (Module [Assign [Name "x"] (Constant 1)])
  ∧ ∃ md, TrackingMetadata_init (kw_of "x = 1" ∅) = Ok md
          ∧ code_str md = "x = 1"
          ∧ code_ast md = Module [Assign [Name "x"] (Constant 1)].
Proof.
  split; [by_compute|]. split; [by_compute|]. split; [by_compute|].
  eexists. split; [reflexivity|]. split; reflexivity.
Qed.



End Examples.

(** ** The further properties on concrete inputs *)

Section MoreExamples.
#[local] Existing Instance sample.

Local Ltac by_compute := vm_compute; reflexivity.
Local Ltac by_decide := apply (bool_decide_unpack _); vm_compute; exact I.

(** X1: node 0 of the appearance scenario is given [next] and
    [step_into]. *)
Lemma build_relation_sets_named_relations_witness :
  NoDup relations_of_call.*1
  ∧ Forall (λ kv, kv.1 ∈ relation_names) relations_of_call
  ∧ ∃ n',
      build_relation node_earlier relations_of_call = (Ok (), n')
      ∧ prev n' = PyNone ∧ next n' = NodeRef 1
      ∧ step_into n' = NodeRef 1 ∧ returned_from n' = PyNone
      ∧ metadata n' = metadata node_earlier ∧ name n' = "0"
      ∧ frame_id n' = frame0.
Proof.
  assert (NoDup relations_of_call.*1) as Hnd by by_decide.
  assert (Forall (λ kv, kv.1 ∈ relation_names) relations_of_call) as Hall
    by by_decide.
  split; [exact Hnd|]. split; [exact Hall|].
  exact (build_relation_sets_named_relations node_earlier relations_of_call
           Hnd Hall).
Defined.

(** X2: [parent] is no relation. *)
Lemma build_relation_stops_at_wrong_name_witness :
  Forall (λ kv, kv.1 ∈ relation_names) [("next", NodeRef 1)]
  ∧ ("parent" ∉ relation_names)
  ∧ build_relation node_earlier
      ([("next", NodeRef 1)] ++ ("parent", NodeRef 1) :: [("prev", ROOT)])
    = (Raise (PyException "wrong relation_name: parent"),
       (build_relation node_earlier [("next", NodeRef 1)]).2)
  ∧ (build_relation node_earlier [("next", NodeRef 1)]).1 = Ok ().
Proof.
  assert (Forall (λ kv : string * Ref, kv.1 ∈ relation_names)
            [("next", NodeRef 1)]) as Hall by by_decide.
  assert ("parent" ∉ relation_names) as Hbad by by_decide.
  split; [exact Hall|]. split; [exact Hbad|].
  exact (build_relation_stops_at_wrong_name node_earlier _ "parent"
           (NodeRef 1) [("prev", ROOT)] Hall Hbad).
Defined.

(** X3: with [step_into] given, node 0 becomes a call site. *)
Lemma is_callsite_after_build_relation_witness :
  NoDup relations_of_call.*1
  ∧ Forall (λ kv, kv.1 ∈ relation_names) relations_of_call
  ∧ is_callsite node_earlier = false
  ∧ is_callsite (build_relation node_earlier relations_of_call).2 = true.
Proof.
  assert (NoDup relations_of_call.*1) as Hnd by by_decide.
  assert (Forall (λ kv, kv.1 ∈ relation_names) relations_of_call) as Hall
    by by_decide.
  split; [exact Hnd|]. split; [exact Hall|]. split; [reflexivity|].
  rewrite (is_callsite_after_build_relation node_earlier relations_of_call
             Hnd Hall).
  reflexivity.
Defined.

(** X4: [y] is an argument of [p] and of [q]; [q] comes last. *)
Lemma arg_to_param_last_parameter_wins_witness :
  ∃ md m,
    TrackingMetadata_init kw_shared_argument = Ok md
    ∧ arg_to_param md = Some m
    ∧ m !! y_id = Some q_id ∧ m !! x_id = Some q_id ∧ m !! p_id = None.
Proof.
  destruct (TrackingMetadata_init kw_shared_argument) as [md|e] eqn:Hinit;
    [|by vm_compute in Hinit].
  destruct (arg_to_param_last_parameter_wins kw_shared_argument md
              [(p_id, [y_id]); (q_id, [y_id; x_id])] Hinit eq_refl)
    as (m & Hm & Hlast); [done|].
  exists md, m. split; [done|]. split; [done|].
  rewrite !Hlast. split_and!; by_compute.
Defined.

(** X5: the second node of the appearance scenario, and a construction
    with neither source nor tree after it. *)
Lemma node_names_are_construction_indices_witness :
  heap (run program_appear initial_world) !! 1 = Some node_later
  ∧ name node_later = pretty 1
  ∧ _name_gen (run program_appear initial_world)
    = length (heap (run program_appear initial_world))
  ∧ run (program_appear
           ++ [NewNode (AsTuple [0%Z])
                 (mkKwargs ∅ None None None None)]) initial_world
    = run program_appear initial_world.
Proof.
  assert (heap (run program_appear initial_world) !! 1 = Some node_later)
    as Hn by by_compute.
  destruct (node_names_are_construction_indices program_appear 1 node_later
              Hn) as (Hname & Hc & Hfail).
  split; [exact Hn|]. split; [exact Hname|]. split; [exact Hc|].
  eapply Hfail. reflexivity.
Defined.

(** X6: the diff of the appearance scenario. *)
Lemma diff_completes_in_reachable_world_witness :
  heap (run program_appear initial_world) !! 0 = Some node_earlier
  ∧ heap (run program_appear initial_world) !! 1 = Some node_later
  ∧ frame_id node_earlier = frame_id node_later
  ∧ (list_var_changes 0 1 (run program_appear initial_world)).1
    = ([Appearance (mkVarAppearance x_id 1%Z)], Exhausted).
Proof.
  assert (heap (run program_appear initial_world) !! 0 = Some node_earlier)
    as Hs by by_compute.
  assert (heap (run program_appear initial_world) !! 1 = Some node_later)
    as Ho by by_compute.
  split; [exact Hs|]. split; [exact Ho|]. split; [reflexivity|].
  rewrite (diff_completes_in_reachable_world program_appear 0 1
             node_earlier node_later Hs Ho eq_refl).
  by_compute.
Defined.

(** X7: the later node is of another frame. *)
Lemma diff_of_different_frames_fails_assertion_witness :
  heap world_two_frames !! 0 = Some node_earlier
  ∧ heap world_two_frames !! 1 = Some node_other_frame
  ∧ frame_id node_earlier ≠ frame_id node_other_frame
  ∧ islice 1 (get_and_update_var_changes 0 1) world_two_frames
    = ([], Failed AssertionError, world_two_frames).
Proof.
  assert (heap world_two_frames !! 0 = Some node_earlier) as Hs by by_compute.
  assert (heap world_two_frames !! 1 = Some node_other_frame) as Ho
    by by_compute.
  assert (frame_id node_earlier ≠ frame_id node_other_frame) as Hf
    by by_decide.
  split; [exact Hs|]. split; [exact Ho|]. split; [exact Hf|].
  exact (diff_of_different_frames_fails_assertion 0 0 1 world_two_frames
           node_earlier node_other_frame Hs Ho Hf).
Defined.

(** X8: of the appearance scenario's diff a caller takes one element. *)
Lemma partial_diff_records_a_prefix_witness :
  heap world_appear !! 0 = Some node_earlier
  ∧ heap world_appear !! 1 = Some node_later
  ∧ frame_id node_earlier = frame_id node_later
  ∧ tracking (metadata node_later) ⊆ dom (data (metadata node_later))
  ∧ ∃ st,
      islice 1 (get_and_update_var_changes 0 1) world_appear
      = ([Appearance (mkVarAppearance x_id 1%Z)], st,
         upd 0 (on_metadata
                  (record_all [Appearance (mkVarAppearance x_id 1%Z)]))
             world_appear).
Proof.
  assert (heap world_appear !! 0 = Some node_earlier) as Hs by by_compute.
  assert (heap world_appear !! 1 = Some node_later) as Ho by by_compute.
  assert (tracking (metadata node_later) ⊆ dom (data (metadata node_later)))
    as Hsub by by_decide.
  split; [exact Hs|]. split; [exact Ho|]. split; [reflexivity|].
  split; [exact Hsub|].
  destruct (partial_diff_records_a_prefix 1 0 1 world_appear node_earlier
              node_later Hs Ho eq_refl Hsub) as (st & Hst & _).
  exists st. rewrite Hst.
  replace (events_between (data (metadata node_earlier))
             (data (metadata node_later))
             (elements (tracking (metadata node_later))))
    with [Appearance (mkVarAppearance x_id 1%Z)] by by_compute.
  reflexivity.
Defined.

(** X9: the appearance scenario's diff, consumed whole. *)
Lemma diff_yields_one_change_per_identifier_witness :
  islice 2 (get_and_update_var_changes 0 1) world_appear
  = ([Appearance (mkVarAppearance x_id 1%Z)], Exhausted,
     (list_var_changes 0 1 world_appear).2)
  ∧ NoDup (change_id <$> [Appearance (mkVarAppearance x_id 1%Z)]).
Proof.
  assert (islice 2 (get_and_update_var_changes 0 1) world_appear
          = ([Appearance (mkVarAppearance x_id 1%Z)], Exhausted,
             (list_var_changes 0 1 world_appear).2)) as Hd by by_compute.
  split; [exact Hd|].
  exact (diff_yields_one_change_per_identifier 2 0 1 world_appear _ _ _ Hd).
Defined.

(** X10: the appearance scenario's diff, run twice. *)
Lemma diff_run_twice_records_twice_witness :
  heap world_appear !! 0 = Some node_earlier
  ∧ heap world_appear !! 1 = Some node_later
  ∧ frame_id node_earlier = frame_id node_later
  ∧ tracking (metadata node_later) ⊆ dom (data (metadata node_later))
  ∧ ∃ cs w1 s2,
      list_var_changes 0 1 world_appear = (cs, Exhausted, w1)
      ∧ list_var_changes 0 1 w1
        = (cs, Exhausted,
           upd 0 (on_metadata (record_all (cs ++ cs))) world_appear)
      ∧ heap (list_var_changes 0 1 w1).2 !! 0 = Some s2
      ∧ var_appearances (metadata s2)
        = var_appearances (metadata node_earlier)
          ++ appearances_of cs ++ appearances_of cs
      ∧ var_modifications (metadata s2)
        = var_modifications (metadata node_earlier)
          ++ modifications_of cs ++ modifications_of cs.
Proof.
  assert (heap world_appear !! 0 = Some node_earlier) as Hs by by_compute.
  assert (heap world_appear !! 1 = Some node_later) as Ho by by_compute.
  assert (tracking (metadata node_later) ⊆ dom (data (metadata node_later)))
    as Hsub by by_decide.
  split; [exact Hs|]. split; [exact Ho|]. split; [reflexivity|].
  split; [exact Hsub|].
  exact (diff_run_twice_records_twice 0 1 world_appear node_earlier
           node_later Hs Ho eq_refl Hsub).
Defined.

(** X11: the earlier node of the appearance scenario across the diff. *)
Lemma diff_changes_only_event_lists_witness :
  islice 2 (get_and_update_var_changes 0 1) world_appear
  = ([Appearance (mkVarAppearance x_id 1%Z)], Exhausted,
     (list_var_changes 0 1 world_appear).2)
  ∧ heap world_appear !! 0 = Some node_earlier
  ∧ _name_gen (list_var_changes 0 1 world_appear).2 = _name_gen world_appear
  ∧ length (heap (list_var_changes 0 1 world_appear).2)
    = length (heap world_appear)
  ∧ ∃ n',
      heap (list_var_changes 0 1 world_appear).2 !! 0 = Some n'
      ∧ frame_id n' = frame_id node_earlier ∧ name n' = name node_earlier
      ∧ prev n' = prev node_earlier ∧ next n' = next node_earlier
      ∧ step_into n' = step_into node_earlier
      ∧ returned_from n' = returned_from node_earlier
      ∧ data (metadata n') = data (metadata node_earlier)
      ∧ data_before_return (metadata n')
        = data_before_return (metadata node_earlier)
      ∧ tracking (metadata n') = tracking (metadata node_earlier)
      ∧ param_to_arg (metadata n') = param_to_arg (metadata node_earlier)
      ∧ arg_to_param (metadata n') = arg_to_param (metadata node_earlier)
      ∧ code_str (metadata n') = code_str (metadata node_earlier)
      ∧ code_ast (metadata n') = code_ast (metadata node_earlier)
      ∧ var_switches (metadata n') = var_switches (metadata node_earlier).
Proof.
  assert (islice 2 (get_and_update_var_changes 0 1) world_appear
          = ([Appearance (mkVarAppearance x_id 1%Z)], Exhausted,
             (list_var_changes 0 1 world_appear).2)) as Hd by by_compute.
  assert (heap world_appear !! 0 = Some node_earlier) as Hs by by_compute.
  split; [exact Hd|]. split; [exact Hs|].
  exact (diff_changes_only_event_lists 2 0 1 world_appear _ _ _ 0
           node_earlier Hd Hs).
Defined.

(** X12: [y] is tracked but unknown just before the return. *)
Lemma before_return_key_error_iff_missing_witness :
  data_before_return (metadata node_return_missing) = Some {[x_id := 2%Z]}
  ∧ ¬ tracking (metadata node_return_missing)
      ⊆ dom ({[x_id := 2%Z]} : gmap ID Z)
  ∧ (update_var_changes_before_return node_return_missing).1
    = Raise KeyError.
Proof.
  split; [reflexivity|].
  assert (¬ tracking (metadata node_return_missing)
            ⊆ dom ({[x_id := 2%Z]} : gmap ID Z)) as Hnot by by_decide.
  split; [exact Hnot|].
  destruct (before_return_key_error_iff_missing node_return_missing
              {[x_id := 2%Z]} eq_refl) as [_ Hkey].
  by apply Hkey.
Defined.

(** X13: a node without [data_before_return] that tracks [x]. *)
Lemma before_return_unset_ok_iff_nothing_tracked_witness :
  data_before_return (metadata node_no_return) = None
  ∧ ((update_var_changes_before_return node_no_return).1 = Ok ()
     ↔ tracking (metadata node_no_return) = ∅)
  ∧ (update_var_changes_before_return node_no_return).2 = node_no_return.
Proof.
  split; [reflexivity|].
  exact (before_return_unset_ok_iff_nothing_tracked node_no_return eq_refl).
Defined.

(** X14: the returning node of scenario E. *)
Lemma before_return_records_no_appearance_witness :
  heap (run program_return initial_world) !! 0 = Some node_return
  ∧ var_appearances
      (metadata (update_var_changes_before_return node_return).2)
    = var_appearances (metadata node_return).
Proof.
  assert (heap (run program_return initial_world) !! 0 = Some node_return)
    as Hn by by_compute.
  split; [exact Hn|].
  exact (before_return_records_no_appearance program_return 0 node_return
           Hn).
Defined.

(** X16: [x] given twice and after [y], or once and before it. *)
Lemma add_tracking_ignores_order_and_repetition_witness :
  (∀ var_id, var_id ∈ [x_id; y_id; x_id] ↔ var_id ∈ [y_id; x_id])
  ∧ add_tracking (metadata node_later) [x_id; y_id; x_id]
    = add_tracking (metadata node_later) [y_id; x_id]
  ∧ add_tracking (add_tracking (metadata node_later) [x_id; y_id; x_id])
      [y_id; x_id]
    = add_tracking (metadata node_later) [x_id; y_id; x_id].
Proof.
  assert (∀ var_id, var_id ∈ [x_id; y_id; x_id] ↔ var_id ∈ [y_id; x_id])
    as Hl.
  { intros var_id. rewrite !elem_of_cons, elem_of_nil. tauto. }
  split; [exact Hl|].
  exact (add_tracking_ignores_order_and_repetition (metadata node_later)
           _ _ Hl).
Defined.

(** X17: the source names [result], the snapshot is empty. *)
Lemma flow_init_unknown_identifier_tracks_nothing_witness :
  heap world_unknown_target !! 0 = Some node_unknown_target
  ∧ target_id node_unknown_target = Ok result_id
  ∧ data (metadata node_unknown_target) !! result_id = None
  ∧ Flow_init 0 0 world_unknown_target
    = (Ok (mkFlow 0 0),
       upd 0 (λ n, setattr n "prev" ROOT) world_unknown_target).
Proof.
  assert (heap world_unknown_target !! 0 = Some node_unknown_target) as Hn
    by by_compute.
  assert (target_id node_unknown_target = Ok result_id) as Hid by by_compute.
  split; [exact Hn|]. split; [exact Hid|]. split; [reflexivity|].
  exact (flow_init_unknown_identifier_tracks_nothing 0 0 world_unknown_target
           node_unknown_target result_id Hn Hid eq_refl).
Defined.

(** X18: scenario D, the flow constructed twice. *)
Lemma flow_init_twice_changes_nothing_witness :
  Flow_init 0 0 (world_of_source "cyberbrain.register(result)")
  = (Ok (mkFlow 0 0),
     (Flow_init 0 0 (world_of_source "cyberbrain.register(result)")).2)
  ∧ Flow_init 0 0
      (Flow_init 0 0 (world_of_source "cyberbrain.register(result)")).2
    = (Ok (mkFlow 0 0),
       (Flow_init 0 0 (world_of_source "cyberbrain.register(result)")).2).
Proof.
  assert (Flow_init 0 0 (world_of_source "cyberbrain.register(result)")
          = (Ok (mkFlow 0 0),
             (Flow_init 0 0
                (world_of_source "cyberbrain.register(result)")).2)) as Hfl
    by by_compute.
  split; [exact Hfl|].
  exact (flow_init_twice_changes_nothing 0 0 _ _ _ Hfl).
Defined.

(** X19: node 0 viewed first and third, node 1 second. *)
Lemma portname_identifies_object_witness :
  NodeView_all viewed initial_views
  = ([mkNodeView (NodeRef 0) "0"; mkNodeView (NodeRef 1) "1";
      mkNodeView (NodeRef 0) "0"],
     (NodeView_all viewed initial_views).2)
  ∧ (_portname (mkNodeView (NodeRef 0) "0")
     = _portname (mkNodeView (NodeRef 1) "1")
     ↔ _node (mkNodeView (NodeRef 0) "0")
       = _node (mkNodeView (NodeRef 1) "1"))
  ∧ viewed !! 0 = Some (_node (mkNodeView (NodeRef 0) "0")).
Proof.
  assert (NodeView_all viewed initial_views
          = ([mkNodeView (NodeRef 0) "0"; mkNodeView (NodeRef 1) "1";
              mkNodeView (NodeRef 0) "0"],
             (NodeView_all viewed initial_views).2)) as Hall by by_compute.
  split; [exact Hall|].
  exact (portname_identifies_object viewed _ _ 0 1 _ _ Hall eq_refl eq_refl).
Defined.

(** X20: two distinct objects among the three viewed. *)
Lemma portnames_number_the_distinct_objects_witness :
  NodeView_all viewed initial_views
  = ((NodeView_all viewed initial_views).1,
     (NodeView_all viewed initial_views).2)
  ∧ _incrementor (NodeView_all viewed initial_views).2 = 2
  ∧ ∃ v, v ∈ (NodeView_all viewed initial_views).1 ∧ _portname v = "1".
Proof.
  assert (NodeView_all viewed initial_views
          = ((NodeView_all viewed initial_views).1,
             (NodeView_all viewed initial_views).2)) as Hall
    by apply surjective_pairing.
  destruct (portnames_number_the_distinct_objects viewed _ _ Hall)
    as [Hinc Hnames].
  split; [exact Hall|]. split; [rewrite Hinc; by_compute|].
  apply Hnames. exists 1. split; [rewrite Hinc|reflexivity].
  apply (bool_decide_unpack _). vm_compute. exact I.
Defined.

(** X21: the view of node 0, linked to node 1, asked for [next]. *)
Lemma view_relation_is_stable_witness :
  view_next (mkNodeView (NodeRef 0) "0") world_linked
    (NodeView_init (NodeRef 0) initial_views).2
  = (Ok (Some (mkNodeView (NodeRef 1) "1")),
     (NodeView_all [NodeRef 0; NodeRef 1] initial_views).2)
  ∧ view_next (mkNodeView (NodeRef 0) "0") world_linked
      (NodeView_all [NodeRef 0; NodeRef 1] initial_views).2
    = (Ok (Some (mkNodeView (NodeRef 1) "1")),
       (NodeView_all [NodeRef 0; NodeRef 1] initial_views).2).
Proof.
  assert (view_next (mkNodeView (NodeRef 0) "0") world_linked
            (NodeView_init (NodeRef 0) initial_views).2
          = (Ok (Some (mkNodeView (NodeRef 1) "1")),
             (NodeView_all [NodeRef 0; NodeRef 1] initial_views).2)) as Hv
    by by_compute.
  split; [exact Hv|].
  exact (proj1 (view_relation_is_stable next _ world_linked _ _ _ Hv)).
Defined.

End MoreExamples.
